(** * Streaming segmentation and translation pipeline of [translation.py]

    A shallow embedding of the three cooperating parts of the program:

    - [TranslationWorker._clean_translation], the prefix cleaning applied to
      every response of the text-generation endpoint;
    - [DraggableSubtitleWindow], the two subtitle slots and the three slots
      [on_speech_recognized], [on_translation_finished] and
      [on_translation_failed] that write them;
    - [WhisperSpeechRecognizer], the voice-activity loop
      [_process_audio_stream] and the transcription step [_process_speech].

    Python [str] values are lists of Unicode code points, so that [len],
    slicing, [startswith] and [strip] count what Python counts. *)

From Stdlib Require Import Strings.String Strings.Ascii Strings.Byte.
From Stdlib Require Import DecimalString.
From Stdlib Require Import Bool Arith NArith ZArith QArith Lia List.
Import ListNotations.

Local Close Scope Q_scope.
Local Open Scope nat_scope.

(** ** Python strings *)

Module PyStr.

Definition codepoint := N.
Definition str := list codepoint.

(** An ASCII literal of the source, as code points. *)
Definition lit (s : string) : str := map N_of_ascii (list_ascii_of_string s).

(** [str.isspace] for one character: the code points that [str.strip()]
    removes (CPython's [Py_UNICODE_ISSPACE]). *)
Definition isspace (c : codepoint) : bool :=
  ((9 <=? c) && (c <=? 13) || (28 <=? c) && (c <=? 32)
   || (c =? 133) || (c =? 160) || (c =? 5760)
   || (8192 <=? c) && (c <=? 8202)
   || (c =? 8232) || (c =? 8233) || (c =? 8239) || (c =? 8287)
   || (c =? 12288))%N.

Fixpoint lstrip (s : str) : str :=
  match s with
  | [] => []
  | c :: s' => if isspace c then lstrip s' else s
  end.

Fixpoint rstrip (s : str) : str :=
  match s with
  | [] => []
  | c :: s' =>
      match rstrip s' with
      | [] => if isspace c then [] else [c]
      | r => c :: r
      end
  end.

(** [s.strip()] *)
Definition strip (s : str) : str := lstrip (rstrip s).

(** [s.startswith(prefix)] *)
Fixpoint startswith (s prefix : str) : bool :=
  match prefix, s with
  | [], _ => true
  | _ :: _, [] => false
  | p :: prefix', c :: s' => (p =? c)%N && startswith s' prefix'
  end.

(** [a == b] on strings *)
Fixpoint eqb (a b : str) : bool :=
  match a, b with
  | [], [] => true
  | x :: a', y :: b' => (x =? y)%N && eqb a' b'
  | _, _ => false
  end.

(** Truth value of a string: [if s:] holds for the non-empty ones. *)
Definition truthy (s : str) : bool :=
  match s with [] => false | _ :: _ => true end.

End PyStr.

Import PyStr.

(** ** TranslationWorker: cleaning of the response *)

Module TranslationWorker.

(** The list [remove_prefixes] of [_clean_translation], in source order.
    Entries that are not ASCII are given by their code points; U+FF1A is the
    full-width colon and U+FF0C the full-width comma. *)
Definition remove_prefixes : list str :=
  [ [20197; 19979; 33521; 25991; 32763; 35793; 25104; 20013; 25991; 65306]%N;
    [20197; 19979; 20013; 25991; 32763; 35793; 25104; 33521; 25991; 65306]%N;
    [32763; 35793; 65306]%N;
    lit "Translation:";
    lit ":";
    [65306]%N;
    lit "Translate this English to Chinese:";
    lit "Translate this Chinese to English:";
    lit "Translate to Chinese:";
    lit "Translate to English:";
    [20013; 25991; 32763; 35793; 65306]%N;
    [33521; 25991; 32763; 35793; 65306]%N;
    lit "Here is the translation:";
    lit "The translation is:";
    [22909; 30340; 65292]%N;
    lit "Okay,";
    [21999; 65292]%N;
    lit "Certainly," ].

(** Body of the [for prefix in remove_prefixes] loop: the loop variable
    [translation] is the state threaded through the iterations.
      [if translation.startswith(prefix):
           translation = translation[len(prefix):].strip()] *)
Definition strip_prefix (translation prefix : str) : str :=
  if startswith translation prefix
  then strip (skipn (length prefix) translation)
  else translation.

(** The loop run over a list of prefixes. *)
Definition strip_prefixes (prefixes : list str) (translation : str) : str :=
  fold_left strip_prefix prefixes translation.

Definition _clean_translation (translation : str) : str :=
  strip (strip_prefixes remove_prefixes translation).

(** The cleaning as the specification words it: the list is searched for the
    first entry the string starts with, that one entry is removed and nothing
    else, and the result is trimmed. *)
Definition clean_first_match_only (translation : str) : str :=
  match find (startswith translation) remove_prefixes with
  | Some prefix => strip (skipn (length prefix) translation)
  | None => strip translation
  end.

(** No entry of [prefixes] is a prefix of [s]. *)
Definition matches_none (prefixes : list str) (s : str) : bool :=
  forallb (fun prefix => negb (startswith s prefix)) prefixes.

End TranslationWorker.

(** ** Qt signals of the worker threads *)

Inductive signal : Type :=
| text_recognized (text detected_language : str)
| status_updated (message : str)
| volume_updated (volume : Z).

(** ** DraggableSubtitleWindow: the subtitle slots *)

Module DraggableSubtitleWindow.

(** A subtitle dict [{"original": .., "translation": .., "language": ..}].
    The two dicts of a window are never aliased: [previous_subtitle] is
    either the dict built in [__init__] or a [.copy()] of the current one, and
    [current_subtitle] is rebound to a fresh dict by every recognition, so an
    in-place write to [current_subtitle["translation"]] is a write to this
    record only. *)
Record subtitle : Type := mk_subtitle
  { original : str; translation : str; language : str }.

(** The [TranslationWorker] object as the window uses it: its
    [request_queue], oldest task first. *)
Record worker : Type := mk_worker { request_queue : list (str * str) }.

(** [TranslationWorker.add_translation_task]:
      [if text and text.strip():
           self.request_queue.put((text, source_language))] *)
Definition add_translation_task (w : worker) (text source_language : str)
  : worker :=
  if truthy text && truthy (strip text)
  then mk_worker (request_queue w ++ [(text, source_language)])
  else w.

Record window : Type := mk_window
  { previous_subtitle : subtitle;
    current_subtitle : subtitle;
    translation_worker : option worker;
    previous_original_label : str;
    previous_translation_label : str;
    current_original_label : str;
    current_translation_label : str;
    language_label : str;
    status_label : str }.

(** The marker shown while a translation is pending (an arrows emoji, a
    space, three Chinese characters and three dots) and the marker shown when
    it failed (a cross emoji, a space and four Chinese characters). *)
Definition pending_marker : str :=
  [128260; 32; 32763; 35793; 20013; 46; 46; 46]%N.
Definition failure_marker : str :=
  [10060; 32; 32763; 35793; 22833; 36133]%N.

(** [dict.get(key, default)] on a dict with string keys. *)
Fixpoint dict_get (d : list (str * str)) (key default : str) : str :=
  match d with
  | [] => default
  | (k, v) :: d' => if eqb k key then v else dict_get d' key default
  end.

Definition language_names : list (str * str) :=
  [ (lit "en", lit "English"); (lit "zh", [20013; 25991]%N);
    (lit "ja", lit "Japanese"); (lit "ko", lit "Korean");
    (lit "fr", lit "French"); (lit "de", lit "German");
    (lit "es", lit "Spanish"); (lit "ru", lit "Russian");
    (lit "unknown", [26410; 30693]%N) ].

Definition _get_language_name (lang_code : str) : str :=
  dict_get language_names lang_code lang_code.

(** The window after [__init__]: empty slots, the start-up texts in the
    labels, and a translation worker with an empty queue. *)
Definition init : window :=
  {| previous_subtitle := mk_subtitle [] [] [];
     current_subtitle := mk_subtitle [] [] [];
     translation_worker := Some (mk_worker []);
     previous_original_label := [];
     previous_translation_label := [];
     current_original_label :=
       [20934; 22791; 23601; 32490; 32; 45; 32; 25353; 70; 50; 24320; 22987;
        32763; 35793]%N;
     current_translation_label := lit "Ready - Press F2 to start";
     language_label := [];
     status_label := [29366; 24577; 58; 32; 31561; 24453; 24320; 22987]%N |}.

Definition update_display (w : window) : window :=
  {| previous_subtitle := previous_subtitle w;
     current_subtitle := current_subtitle w;
     translation_worker := translation_worker w;
     previous_original_label := original (previous_subtitle w);
     previous_translation_label := translation (previous_subtitle w);
     current_original_label := original (current_subtitle w);
     current_translation_label := translation (current_subtitle w);
     language_label := language_label w;
     status_label := status_label w |}.

Definition set_language_label (w : window) (s : str) : window :=
  {| previous_subtitle := previous_subtitle w;
     current_subtitle := current_subtitle w;
     translation_worker := translation_worker w;
     previous_original_label := previous_original_label w;
     previous_translation_label := previous_translation_label w;
     current_original_label := current_original_label w;
     current_translation_label := current_translation_label w;
     language_label := s;
     status_label := status_label w |}.

Definition set_status_label (w : window) (s : str) : window :=
  {| previous_subtitle := previous_subtitle w;
     current_subtitle := current_subtitle w;
     translation_worker := translation_worker w;
     previous_original_label := previous_original_label w;
     previous_translation_label := previous_translation_label w;
     current_original_label := current_original_label w;
     current_translation_label := current_translation_label w;
     language_label := language_label w;
     status_label := s |}.

Definition set_subtitles (w : window) (previous current : subtitle) : window :=
  {| previous_subtitle := previous;
     current_subtitle := current;
     translation_worker := translation_worker w;
     previous_original_label := previous_original_label w;
     previous_translation_label := previous_translation_label w;
     current_original_label := current_original_label w;
     current_translation_label := current_translation_label w;
     language_label := language_label w;
     status_label := status_label w |}.

Definition set_translation_worker (w : window) (tw : option worker) : window :=
  {| previous_subtitle := previous_subtitle w;
     current_subtitle := current_subtitle w;
     translation_worker := tw;
     previous_original_label := previous_original_label w;
     previous_translation_label := previous_translation_label w;
     current_original_label := current_original_label w;
     current_translation_label := current_translation_label w;
     language_label := language_label w;
     status_label := status_label w |}.

(** [self.current_subtitle["translation"] = t] *)
Definition set_current_translation (w : window) (t : str) : window :=
  set_subtitles w (previous_subtitle w)
    (mk_subtitle (original (current_subtitle w)) t
                 (language (current_subtitle w))).

Definition on_speech_recognized (w : window) (text detected_language : str)
  : window :=
  let language_name := _get_language_name detected_language in
  let w1 :=
    set_language_label w
      ([26816; 27979; 35821; 35328; 58; 32]%N ++ language_name) in
  let previous :=
    if truthy (original (current_subtitle w1))
    then current_subtitle w1
    else previous_subtitle w1 in
  let w2 :=
    set_subtitles w1 previous
      (mk_subtitle text pending_marker detected_language) in
  let w3 := update_display w2 in
  match translation_worker w3 with
  | Some tw =>
      set_translation_worker w3
        (Some (add_translation_task tw text detected_language))
  | None => w3
  end.

Definition on_translation_finished
  (w : window) (original_text translated_text source_language : str)
  : window :=
  if eqb (original (current_subtitle w)) original_text
  then update_display (set_current_translation w translated_text)
  else w.

Definition on_translation_failed (w : window) (original_text error_msg : str)
  : window :=
  if eqb (original (current_subtitle w)) original_text
  then update_display (set_current_translation w failure_marker)
  else w.

(** Delivery of a worker-thread signal to the slot connected to it in
    [start_recording]: [text_recognized] to [on_speech_recognized],
    [status_updated] to [status_label.setText].  [volume_updated] drives the
    volume label only, which holds no subtitle state and is left out of
    [window]. *)
Definition deliver (w : window) (s : signal) : window :=
  match s with
  | text_recognized text detected_language =>
      on_speech_recognized w text detected_language
  | status_updated message => set_status_label w message
  | volume_updated _ => w
  end.

Definition deliver_all (w : window) (l : list signal) : window :=
  fold_left deliver l w.

End DraggableSubtitleWindow.

(** ** WhisperSpeechRecognizer: segmentation and transcription *)

Module WhisperSpeechRecognizer.

(** A block of raw audio as the capture callback queues it. *)
Definition bytes := list byte.

(** Attributes set in [__init__] and never reassigned.  Durations are
    rationals: every duration the loop computes is [n * 1024 / 16000] for a
    frame count [n], and none of these lies within rounding distance of a
    threshold without being equal to it, so the float comparisons of the
    source and the exact ones below agree. *)
Definition chunk_size : Z := 1024.
Definition sample_rate : Z := 16000.
Definition silence_threshold : Q := 100.
Definition silence_duration_threshold : Q := 1.2.
Definition min_speech_duration : Q := 0.5.
Definition max_speech_duration : Q := 8.

Record recognizer : Type := mk_recognizer
  { audio_buffer : list bytes;
    silence_frames : nat;
    is_speaking : bool }.

Definition init : recognizer := mk_recognizer [] 0 false.

(** One little-endian 16-bit signed sample. *)
Definition int16 (lo hi : byte) : Z :=
  let u := (Z.of_N (Byte.to_N lo) + 256 * Z.of_N (Byte.to_N hi))%Z in
  if (u <? 32768)%Z then u else (u - 65536)%Z.

(** [np.frombuffer(data, dtype=np.int16)]; [None] stands for the
    [ValueError] raised when the size is not a multiple of two. *)
Fixpoint frombuffer (data : bytes) : option (list Z) :=
  match data with
  | [] => Some []
  | [_] => None
  | lo :: hi :: rest =>
      match frombuffer rest with
      | Some samples => Some (int16 lo hi :: samples)
      | None => None
      end
  end.

(** [np.abs] on [int16]: the result is again [int16], so the most negative
    sample maps to itself. *)
Definition np_abs (x : Z) : Z :=
  if (x =? -32768)%Z then (-32768)%Z else Z.abs x.

Definition np_mean (a : list Z) : Q :=
  (inject_Z (fold_right Z.add 0%Z a) / inject_Z (Z.of_nat (length a)))%Q.

Definition volume_of (audio_data : list Z) : Q :=
  if 0 <? length audio_data then np_mean (map np_abs audio_data) else 0%Q.

(** [int(x)]: truncation towards zero. *)
Definition int_of (x : Q) : Z := Z.quot (Qnum x) (Zpos (Qden x)).

(** [n * self.chunk_size / self.sample_rate] *)
Definition duration (n : nat) : Q :=
  (inject_Z (Z.of_nat n * chunk_size) / inject_Z sample_rate)%Q.

(** [int(0.3 * self.sample_rate / self.chunk_size)] *)
Definition keep_frames : nat :=
  Z.to_nat (int_of (0.3 * inject_Z sample_rate / inject_Z chunk_size)%Q).

Definition nonempty {A : Type} (l : list A) : bool :=
  match l with [] => false | _ :: _ => true end.

(** What one iteration of the loop does to the outside: it emits a signal,
    or it calls [self._process_speech(audio_data)]. *)
Inductive effect : Type :=
| emit (s : signal)
| call_process_speech (audio_data : bytes).

(** The status text emitted when speech starts. *)
Definition status_speech_detected : str :=
  [29366; 24577; 58; 32; 127908; 32; 26816; 27979; 21040; 35821; 38899]%N.

(** The closure conditions evaluated after a frame was taken in, for a
    buffer of [buffered] frames, [silent] trailing silent frames and the
    frame's [volume]; in the order of the [if]/[elif] chain. *)
Definition should_process (buffered silent : nat) (volume : Q) : bool :=
  let audio_duration := if 0 <? buffered then duration buffered else 0%Q in
  let silence_duration := duration silent in
  if Qle_bool silence_duration_threshold silence_duration
     && Qle_bool min_speech_duration audio_duration
  then true
  else if Qle_bool max_speech_duration audio_duration
  then true
  else if Qle_bool 1.0 audio_duration
          && Qle_bool 0.8 silence_duration
          && negb (Qle_bool (silence_threshold * 0.7) volume)
  then true
  else false.

(** Voice-activity update of the state by a frame of the given volume. *)
Definition detect (st : recognizer) (data : bytes) (volume : Q)
  : recognizer * list effect :=
  if negb (Qle_bool volume silence_threshold)
  then
    if negb (is_speaking st)
    then (mk_recognizer [data] 0 true,
          [emit (status_updated status_speech_detected)])
    else (mk_recognizer (audio_buffer st ++ [data]) 0 true, [])
  else
    (mk_recognizer
       (if is_speaking st then audio_buffer st ++ [data] else audio_buffer st)
       (S (silence_frames st))
       (is_speaking st),
     []).

(** The reset after an utterance was handed to [_process_speech]. *)
Definition reset_after_speech (st : recognizer) : recognizer :=
  mk_recognizer
    (if keep_frames <? length (audio_buffer st)
     then skipn (length (audio_buffer st) - keep_frames) (audio_buffer st)
     else [])
    0 false.

(** The body of the [try] for a block taken from the queue.  An exception
    in it is caught by [except Exception: continue] with the state as it
    was.  The [print] calls and [debug_counter], which only paces them, are
    left out.  [_process_speech] catches what it raises, so the reset that
    follows the call always runs. *)
Definition on_frame (st : recognizer) (data : bytes)
  : recognizer * list effect :=
  if negb (nonempty data) then (st, [])
  else
    match frombuffer data with
    | None => (st, [])
    | Some audio_data =>
        let volume := volume_of audio_data in
        let '(st1, started) := detect st data volume in
        let effects := emit (volume_updated (int_of volume)) :: started in
        if is_speaking st1
           && should_process (length (audio_buffer st1)) (silence_frames st1)
                volume
           && nonempty (audio_buffer st1)
        then (reset_after_speech st1,
              effects ++ [call_process_speech (concat (audio_buffer st1))])
        else (st1, effects)
    end.

(** The [except queue.Empty] branch. *)
Definition on_timeout (st : recognizer) : recognizer * list effect :=
  if is_speaking st && nonempty (audio_buffer st)
  then
    if Qle_bool min_speech_duration (duration (length (audio_buffer st)))
    then (mk_recognizer [] (silence_frames st) false,
          [call_process_speech (concat (audio_buffer st))])
    else (st, [])
  else (st, []).

(** What [self.audio_queue.get(timeout=0.1)] yields in one iteration. *)
Inductive queue_event : Type :=
| frame (data : bytes)
| timeout.

Definition iteration (st : recognizer) (ev : queue_event)
  : recognizer * list effect :=
  match ev with
  | frame data => on_frame st data
  | timeout => on_timeout st
  end.

(** The [while self._is_running] loop over the iterations that take place
    before the flag is cleared. *)
Fixpoint _process_audio_stream (st : recognizer) (evs : list queue_event)
  : recognizer * list effect :=
  match evs with
  | [] => (st, [])
  | ev :: evs' =>
      let '(st1, e1) := iteration st ev in
      let '(st2, e2) := _process_audio_stream st1 evs' in
      (st2, e1 ++ e2)
  end.

(** The utterances handed to [_process_speech], in order. *)
Fixpoint utterances (effects : list effect) : list bytes :=
  match effects with
  | [] => []
  | call_process_speech audio_data :: rest => audio_data :: utterances rest
  | emit _ :: rest => utterances rest
  end.

(** *** Transcription of one utterance *)

Definition path := str.

(** The dict returned by [model.transcribe]: [result["text"]] and
    [result.get("language")]. *)
Record transcription : Type := mk_transcription
  { text : str; language : option str }.

Inductive outcome (A : Type) : Type :=
| returns (a : A)
| raises.
Arguments returns {A} a.
Arguments raises {A}.

(** What the outside does during one call of [_process_speech]: the name
    [tempfile.NamedTemporaryFile] picks, whether writing the WAV file
    works, what [model.transcribe] does, and whether [os.unlink] works. *)
Record environment : Type := mk_environment
  { NamedTemporaryFile : outcome path;
    wave_write : outcome unit;
    transcribe : outcome transcription;
    unlink : outcome unit }.

Definition language_names : list (str * str) :=
  [ (lit "en", [33521; 25991]%N); (lit "zh", [20013; 25991]%N);
    (lit "ja", [26085; 25991]%N); (lit "ko", [38889; 25991]%N);
    (lit "fr", [27861; 25991]%N); (lit "de", [24503; 25991]%N);
    (lit "es", [35199; 29677; 29273; 25991]%N);
    (lit "ru", [20420; 25991]%N) ].

Definition _get_language_name (lang_code : str) : str :=
  DraggableSubtitleWindow.dict_get language_names lang_code lang_code.

Definition status_recognizing : str :=
  [29366; 24577; 58; 32; 128269; 32; 35782; 21035; 20013; 46; 46; 46]%N.
Definition status_done (language_name : str) : str :=
  [29366; 24577; 58; 32; 9989; 32; 35782; 21035; 23436; 25104; 32; 40]%N
    ++ language_name ++ lit ")".
Definition status_failed : str :=
  [29366; 24577; 58; 32; 10060; 32; 35782; 21035; 22833; 36133]%N.
Definition status_error : str :=
  [29366; 24577; 58; 32; 10060; 32; 35782; 21035; 38169; 35823]%N.

(** [os.unlink(temp_path)] inside [try: ... except: pass]. *)
Definition try_unlink (env : environment) (temp_path : path)
  (files : list path) : list path :=
  match unlink env with
  | returns _ => filter (fun p => negb (eqb p temp_path)) files
  | raises => files
  end.

(** [_process_speech]: [files] are the temporary files on disk; the result
    is the files on disk afterwards and the signals emitted.  Every
    [raises] of the environment inside the outer [try] ends in the
    [except Exception] handler, which emits the error status and returns. *)
Definition _process_speech (env : environment) (files : list path)
  (audio_data : bytes) : list path * list signal :=
  match NamedTemporaryFile env with
  | raises => (files, [status_updated status_error])
  | returns temp_path =>
      let files1 := temp_path :: files in
      match wave_write env with
      | raises => (files1, [status_updated status_error])
      | returns _ =>
          match transcribe env with
          | raises =>
              (files1,
               [status_updated status_recognizing;
                status_updated status_error])
          | returns result =>
              let text := strip (text result) in
              let detected_language :=
                match language result with
                | Some l => l
                | None => lit "unknown"
                end in
              let files2 := try_unlink env temp_path files1 in
              if truthy text && (1 <? length text)
              then
                let language_name := _get_language_name detected_language in
                (files2,
                 [status_updated status_recognizing;
                  text_recognized text detected_language;
                  status_updated (status_done language_name)])
              else
                (files2,
                 [status_updated status_recognizing;
                  status_updated status_failed])
          end
      end
  end.

(** *** Vocabulary of the properties *)

(** The volume the loop computes for a block, when it gets that far: an
    empty block is skipped and a block of odd size raises in
    [np.frombuffer]. *)
Definition computed_volume (data : bytes) : option Q :=
  if nonempty data
  then match frombuffer data with
       | Some audio_data => Some (volume_of audio_data)
       | None => None
       end
  else None.

(** A frame the loop takes as speech: [volume > self.silence_threshold]. *)
Definition above_threshold (data : bytes) : bool :=
  match computed_volume data with
  | Some v => negb (Qle_bool v silence_threshold)
  | None => false
  end.

(** A frame the loop takes as silence: it has a volume and the volume is
    not above the threshold. *)
Definition silent (data : bytes) : bool :=
  match computed_volume data with
  | Some v => Qle_bool v silence_threshold
  | None => false
  end.

(** Every volume computed for the block is strictly below the threshold. *)
Definition below_threshold (data : bytes) : bool :=
  match computed_volume data with
  | Some v => negb (Qle_bool silence_threshold v)
  | None => true
  end.

Definition emits_utterance (effects : list effect) : bool :=
  nonempty (utterances effects).

(** The third closure condition on its own. *)
Definition short_utterance_rule (buffered silent_run : nat) (volume : Q)
  : bool :=
  Qle_bool 1.0 (duration buffered)
  && Qle_bool 0.8 (duration silent_run)
  && negb (Qle_bool (silence_threshold * 0.7) volume).

(** Frames of 1024 equal samples, as the capture callback delivers them. *)
Definition tone (lo hi : byte) : bytes := concat (repeat [lo; hi] 1024).
Definition loud_frame : bytes := tone xc8 x00.
Definition louder_frame : bytes := tone x2c x01.
Definition quiet_frame : bytes := tone x50 x00.
Definition zero_frame : bytes := tone x00 x00.

End WhisperSpeechRecognizer.

(** ** TranslationWorker: one request and the worker loop *)

Module TranslationRequests.

Import WhisperSpeechRecognizer.

(** The two signals of [TranslationWorker]. *)
Inductive worker_signal : Type :=
| translation_finished (original translation source_lang : str)
| translation_failed (original error : str).

(** The JSON body of the request. *)
Record payload : Type := mk_payload
  { model : str; prompt : str; stream : bool }.

(** What [response.json()] does: it returns a dict, of which only
    [result.get("response")] is read, or it raises. *)
Inductive json_result : Type :=
| json_dict (response_field : option str)
| json_raises (message : str).

Record response : Type := mk_response
  { status_code : nat; json : json_result }.

(** What [requests.post] does, by the handler that takes the exception:
    [requests.exceptions.Timeout], [requests.exceptions.ConnectionError],
    or any other [Exception] with its [str(e)]. *)
Inductive post_result : Type :=
| post_returns (r : response)
| post_timeout
| post_connection_error
| post_raises (message : str).

(** [f"{n}"] for a non-negative [int]. *)
Definition format_int (n : nat) : str :=
  lit (NilZero.string_of_uint (Nat.to_uint n)).

Definition build_prompt (text source_language : str) : str :=
  if eqb source_language (lit "zh")
  then lit "Translate this Chinese to English: " ++ text
  else lit "Translate this to Chinese: " ++ text.

(** [_process_translation]; [post] is the endpoint as seen from this
    call. *)
Definition _process_translation (model_name : str)
  (post : payload -> post_result) (text source_language : str)
  : list worker_signal :=
  let payload := mk_payload model_name (build_prompt text source_language)
                   false in
  match post payload with
  | post_returns r =>
      if status_code r =? 200
      then
        match json r with
        | json_dict field =>
            let translation :=
              strip (match field with Some t => t | None => [] end) in
            let translation :=
              TranslationWorker._clean_translation translation in
            [translation_finished text translation source_language]
        | json_raises message =>
            [translation_failed text
               ([32763; 35793; 24322; 24120; 58; 32]%N ++ message)]
        end
      else
        [translation_failed text
           ([72; 84; 84; 80; 38169; 35823; 58; 32]%N
              ++ format_int (status_code r))]
  | post_timeout =>
      [translation_failed text [32763; 35793; 36229; 26102]%N]
  | post_connection_error =>
      [translation_failed text
         [36830; 25509; 79; 108; 108; 97; 109; 97; 22833; 36133]%N]
  | post_raises message =>
      [translation_failed text
         ([32763; 35793; 24322; 24120; 58; 32]%N ++ message)]
  end.

(** The [run] loop over the tasks it takes from [request_queue], oldest
    first; [post n] is the endpoint during the [n]-th request.  A task is a
    pair and so always true in [if task:]. *)
Fixpoint run (model_name : str) (post : nat -> payload -> post_result)
  (n : nat) (request_queue : list (str * str)) : list worker_signal :=
  match request_queue with
  | [] => []
  | (text, source_language) :: rest =>
      _process_translation model_name (post n) text source_language
        ++ run model_name post (S n) rest
  end.

(** The original text a signal is tagged with. *)
Definition original_of (s : worker_signal) : str :=
  match s with
  | translation_finished original _ _ => original
  | translation_failed original _ => original
  end.

(** Delivery of a worker signal to the slot connected to it in
    [_start_translation_worker]. *)
Definition deliver_result (w : DraggableSubtitleWindow.window)
  (s : worker_signal) : DraggableSubtitleWindow.window :=
  match s with
  | translation_finished original translation source_lang =>
      DraggableSubtitleWindow.on_translation_finished w original translation
        source_lang
  | translation_failed original error =>
      DraggableSubtitleWindow.on_translation_failed w original error
  end.

End TranslationRequests.

(** ** DraggableSubtitleWindow: the list of models *)

Module ModelMenu.

Import WhisperSpeechRecognizer DraggableSubtitleWindow.

(** [self.model_name] and [self.custom_models]. *)
Record models : Type := mk_models
  { model_name : str; custom_models : list str }.

Definition init_models : models :=
  mk_models (lit "qwen2.5:3b") [lit "qwen2.5:3b"; lit "deepseek-r1:7b"].

(** [x in l] *)
Definition list_in (x : str) (l : list str) : bool := existsb (eqb x) l.

(** [l.remove(x)]: the first element equal to [x] is removed; [raises]
    stands for the [ValueError] when there is none. *)
Fixpoint list_remove (x : str) (l : list str) : outcome (list str) :=
  match l with
  | [] => raises
  | y :: l' =>
      if eqb y x then returns l'
      else match list_remove x l' with
           | returns r => returns (y :: r)
           | raises => raises
           end
  end.

(** [set_model]: the translation worker is stopped and a new one, with a
    queue of its own, is started. *)
Definition set_model (w : window) (m : models) (name : str)
  : window * models :=
  (set_translation_worker w (Some (mk_worker [])),
   mk_models name (custom_models m)).

(** [add_custom_model]; [name] and [ok] are what the input dialog
    returned. *)
Definition add_custom_model (m : models) (name : str) (ok : bool) : models :=
  if ok && truthy (strip name)
  then if negb (list_in name (custom_models m))
       then mk_models (model_name m) (custom_models m ++ [name])
       else m
  else m.

(** [remove_current_model]; [yes] is the answer to the confirmation
    dialog, which is shown only when more than one model is listed. *)
Definition remove_current_model (w : window) (m : models) (yes : bool)
  : outcome (window * models) :=
  if length (custom_models m) <=? 1 then returns (w, m)
  else if yes
  then match list_remove (model_name m) (custom_models m) with
       | raises => raises
       | returns [] => raises
       | returns (first :: rest) =>
           returns (set_model w (mk_models (model_name m) (first :: rest))
                      first)
       end
  else returns (w, m).

(** The current model is listed and no model is listed twice. *)
Definition models_ok (m : models) : Prop :=
  In (model_name m) (custom_models m) /\ NoDup (custom_models m).

End ModelMenu.

(** ** Vocabulary of the further properties *)

Module Vocabulary.

Import DraggableSubtitleWindow.

(** [a] is a contiguous part of [b]. *)
Definition part_of (a b : str) : Prop := exists l r, b = l ++ a ++ r.

(** The four subtitle labels show the two slots. *)
Definition display_consistent (w : window) : Prop :=
  previous_original_label w = original (previous_subtitle w)
  /\ previous_translation_label w = translation (previous_subtitle w)
  /\ current_original_label w = original (current_subtitle w)
  /\ current_translation_label w = translation (current_subtitle w).

(** What reaches the window from the two worker threads. *)
Inductive window_event : Type :=
| from_recognizer (s : signal)
| from_translator (s : TranslationRequests.worker_signal).

Definition handle (w : window) (ev : window_event) : window :=
  match ev with
  | from_recognizer s => deliver w s
  | from_translator s => TranslationRequests.deliver_result w s
  end.

Definition handle_all (w : window) (evs : list window_event) : window :=
  fold_left handle evs w.

(** The request queue of the window's worker; empty when there is none. *)
Definition pending_tasks (w : window) : list (str * str) :=
  match translation_worker w with
  | Some tw => request_queue tw
  | None => []
  end.

(** A text with a character that is not whitespace. *)
Definition nonblank (text : str) : bool := truthy (strip text).

(** The block reaches the volume computation: it is not empty and its
    size is even. *)
Definition well_formed (data : WhisperSpeechRecognizer.bytes) : bool :=
  match WhisperSpeechRecognizer.computed_volume data with
  | Some _ => true
  | None => false
  end.



End Vocabulary.

(** * Properties *)

(** ** Trimming *)

Section Strip.

Lemma lstrip_idempotent (s : str) : lstrip (lstrip s) = lstrip s.
Proof.
  induction s as [|c s IH]; simpl; [reflexivity|].
  destruct (isspace c) eqn:Hc; [exact IH|].
  simpl. now rewrite Hc.
Qed.

Lemma rstrip_nil_inv (s : str) (c : codepoint) :
  rstrip (c :: s) = [] -> rstrip s = [] /\ isspace c = true.
Proof.
  simpl. destruct (rstrip s); [|discriminate].
  destruct (isspace c); [auto|discriminate].
Qed.

Lemma rstrip_idempotent (s : str) : rstrip (rstrip s) = rstrip s.
Proof.
  induction s as [|c s IH]; simpl; [reflexivity|].
  destruct (rstrip s) as [|d r] eqn:Hr.
  - destruct (isspace c) eqn:Hc; simpl; [reflexivity|now rewrite Hc].
  - change (rstrip (c :: d :: r) = c :: d :: r).
    simpl rstrip at 1. simpl in IH |- *. rewrite IH. reflexivity.
Qed.

Lemma rstrip_lstrip (s : str) : rstrip (lstrip s) = lstrip (rstrip s).
Proof.
  induction s as [|c s IH]; simpl; [reflexivity|].
  destruct (isspace c) eqn:Hc.
  - rewrite IH. destruct (rstrip s) as [|d r]; simpl; now rewrite ?Hc.
  - simpl. destruct (rstrip s) as [|d r]; simpl; now rewrite ?Hc.
Qed.

Lemma strip_idempotent (s : str) : strip (strip s) = strip s.
Proof.
  unfold strip.
  rewrite (rstrip_lstrip (rstrip s)), rstrip_idempotent, lstrip_idempotent.
  reflexivity.
Qed.

End Strip.

(** ** Cleaning of the translation *)

Section Cleaning.

Import TranslationWorker.

Lemma strip_prefix_no_match (s prefix : str) :
  startswith s prefix = false -> strip_prefix s prefix = s.
Proof. unfold strip_prefix. now intros ->. Qed.

Lemma strip_prefixes_matches_none (prefixes : list str) (s : str) :
  matches_none prefixes s = true -> strip_prefixes prefixes s = s.
Proof.
  unfold strip_prefixes, matches_none.
  induction prefixes as [|p l IH]; simpl; [reflexivity|].
  intros H. apply andb_true_iff in H as [Hp Hl].
  apply negb_true_iff in Hp.
  rewrite (strip_prefix_no_match _ _ Hp). exact (IH Hl).
Qed.

Lemma strip_prefixes_app (l1 l2 : list str) (s : str) :
  strip_prefixes (l1 ++ l2) s = strip_prefixes l2 (strip_prefixes l1 s).
Proof. unfold strip_prefixes. apply fold_left_app. Qed.

Lemma find_first_match (l1 l2 : list str) (p s : str) :
  matches_none l1 s = true -> startswith s p = true ->
  find (startswith s) (l1 ++ p :: l2) = Some p.
Proof.
  unfold matches_none.
  induction l1 as [|q l1 IH]; simpl; intros Hnone Hp.
  - now rewrite Hp.
  - apply andb_true_iff in Hnone as [Hq Hl].
    apply negb_true_iff in Hq. rewrite Hq. auto.
Qed.

Lemma find_none_matches_none (l : list str) (s : str) :
  find (startswith s) l = None <-> matches_none l s = true.
Proof.
  unfold matches_none.
  induction l as [|q l IH]; simpl; [tauto|].
  destruct (startswith s q); simpl; [split; discriminate|exact IH].
Qed.

(** C3, as stated, fails: on a response that opens with two listed
    phrases, the thirteenth entry and then the sixteenth, the loop removes
    both, where removing only the first match would leave the second in
    place. *)
Lemma clean_translation_strips_two_prefixes :
  _clean_translation (lit "Here is the translation: Okay, hi") = lit "hi"
  /\ clean_first_match_only (lit "Here is the translation: Okay, hi")
     = lit "Okay, hi"
  /\ _clean_translation (lit "Here is the translation: Okay, hi")
     <> clean_first_match_only (lit "Here is the translation: Okay, hi").
Proof.
  split; [vm_compute; reflexivity|].
  split; [vm_compute; reflexivity|].
  intros H. vm_compute in H. discriminate H.
Qed.

(** C3, amended: the loop walks the list once, in order and
    case-sensitively.  When no entry is a prefix of the response, the result
    is the response trimmed.  Otherwise the first entry that matches is
    removed and the remainder trimmed, and the entries listed after it are
    then tried in turn on that remainder in the same way; the final result is
    trimmed.  Exactly the first match is removed, as the one-prefix reading
    has it, whenever none of the later entries is a prefix of the trimmed
    remainder. *)
Theorem clean_translation_first_match_then_rest (s : str) :
  (matches_none remove_prefixes s = true -> _clean_translation s = strip s)
  /\ (forall l1 p l2,
        remove_prefixes = l1 ++ p :: l2 ->
        matches_none l1 s = true ->
        startswith s p = true ->
        let rest := strip (skipn (length p) s) in
        _clean_translation s = strip (strip_prefixes l2 rest)
        /\ (matches_none l2 rest = true ->
            _clean_translation s = rest
            /\ _clean_translation s = clean_first_match_only s)).
Proof.
  split.
  - intros H. unfold _clean_translation.
    now rewrite strip_prefixes_matches_none.
  - intros l1 p l2 Hsplit Hnone Hp rest.
    assert (Hrun : _clean_translation s = strip (strip_prefixes l2 rest)).
    { unfold _clean_translation. rewrite Hsplit.
      rewrite strip_prefixes_app, (strip_prefixes_matches_none l1 s Hnone).
      change (strip_prefixes (p :: l2) s)
        with (strip_prefixes l2 (strip_prefix s p)).
      unfold strip_prefix. rewrite Hp. reflexivity. }
    split; [exact Hrun|].
    intros Hrest.
    assert (Hone : _clean_translation s = rest).
    { rewrite Hrun, (strip_prefixes_matches_none l2 rest Hrest).
      apply strip_idempotent. }
    split; [exact Hone|].
    rewrite Hone. unfold clean_first_match_only.
    rewrite Hsplit, (find_first_match l1 l2 p s Hnone Hp). reflexivity.
Qed.

Lemma clean_translation_first_match_then_rest_witness :
  _clean_translation (lit "Okay, hi") = lit "hi"
  /\ _clean_translation (lit "Okay, hi")
     = clean_first_match_only (lit "Okay, hi").
Proof.
  apply (proj2 (clean_translation_first_match_then_rest (lit "Okay, hi"))
           (firstn 15 remove_prefixes) (lit "Okay,")
           (skipn 16 remove_prefixes));
    vm_compute; reflexivity.
Defined.

(** C4, as stated, fails: a response that repeats a listed label loses one
    copy per cleaning, so cleaning the cleaned text changes it again. *)
Lemma clean_translation_not_idempotent :
  _clean_translation (lit "Translation: Translation: hi")
  = lit "Translation: hi"
  /\ _clean_translation
       (_clean_translation (lit "Translation: Translation: hi"))
     <> _clean_translation (lit "Translation: Translation: hi").
Proof.
  split; [vm_compute; reflexivity|].
  intros H. vm_compute in H. discriminate H.
Qed.

(** C4, amended: cleaning is idempotent on already-clean text, that is,
    [clean (clean s) = clean s] for every [s] whose cleaned form starts with
    none of the listed prefixes. *)
Theorem clean_translation_idempotent_on_clean_output (s : str) :
  matches_none remove_prefixes (_clean_translation s) = true ->
  _clean_translation (_clean_translation s) = _clean_translation s.
Proof.
  intros H. unfold _clean_translation at 1.
  rewrite (strip_prefixes_matches_none _ _ H).
  unfold _clean_translation. apply strip_idempotent.
Qed.

Lemma clean_translation_idempotent_on_clean_output_witness :
  matches_none remove_prefixes
    (_clean_translation (lit "Translation:  hi ")) = true
  /\ _clean_translation (_clean_translation (lit "Translation:  hi "))
     = _clean_translation (lit "Translation:  hi ").
Proof.
  split; [vm_compute; reflexivity|].
  apply (clean_translation_idempotent_on_clean_output
           (lit "Translation:  hi ")).
  vm_compute; reflexivity.
Defined.

End Cleaning.

(** ** The subtitle slots *)

Section Subtitles.

Import DraggableSubtitleWindow.

Lemma eqb_eq (a b : str) : eqb a b = true <-> a = b.
Proof.
  revert b. induction a as [|x a IH]; intros [|y b]; simpl;
    try (split; [discriminate|congruence]); [tauto|].
  rewrite andb_true_iff, N.eqb_eq, IH. split.
  - now intros [-> ->].
  - intros H. now inversion H.
Qed.

Lemma eqb_neq (a b : str) : eqb a b = false <-> a <> b.
Proof.
  rewrite <- eqb_eq. destruct (eqb a b); split; congruence.
Qed.

Lemma truthy_nonempty (s : str) : truthy s = true <-> s <> [].
Proof. destruct s; simpl; split; congruence. Qed.

Lemma strip_nil : strip [] = [].
Proof. reflexivity. Qed.

Lemma add_translation_task_nonblank (tw : worker) (text source_language : str) :
  strip text <> [] ->
  add_translation_task tw text source_language
  = mk_worker (request_queue tw ++ [(text, source_language)]).
Proof.
  intros H. unfold add_translation_task.
  assert (Ht : text <> []) by (intros ->; now apply H).
  apply truthy_nonempty in H, Ht. now rewrite H, Ht.
Qed.

Lemma add_translation_task_blank (tw : worker) (text source_language : str) :
  strip text = [] -> add_translation_task tw text source_language = tw.
Proof.
  intros H. unfold add_translation_task. rewrite H. simpl.
  now rewrite andb_false_r.
Qed.

(** C1: [on_translation_finished] writes the translation into the current
    slot exactly when the current original equals the original the result
    carries, and then changes nothing else of the two slots; when the two
    differ the window is left as it was.  [on_translation_failed] is gated
    the same way and writes the failure marker. *)
Theorem translation_result_equality_gate
  (w : window) (original_text translated_text source_language error_msg : str) :
  (original (current_subtitle w) = original_text ->
     current_subtitle
       (on_translation_finished w original_text translated_text
          source_language)
     = mk_subtitle (original (current_subtitle w)) translated_text
         (language (current_subtitle w))
     /\ previous_subtitle
          (on_translation_finished w original_text translated_text
             source_language)
        = previous_subtitle w
     /\ current_subtitle (on_translation_failed w original_text error_msg)
        = mk_subtitle (original (current_subtitle w)) failure_marker
            (language (current_subtitle w))
     /\ previous_subtitle (on_translation_failed w original_text error_msg)
        = previous_subtitle w)
  /\ (original (current_subtitle w) <> original_text ->
        on_translation_finished w original_text translated_text
          source_language = w
        /\ on_translation_failed w original_text error_msg = w).
Proof.
  unfold on_translation_finished, on_translation_failed. split.
  - intros H. apply eqb_eq in H. rewrite H. simpl. auto.
  - intros H. apply eqb_neq in H. rewrite H. auto.
Qed.

Lemma translation_result_equality_gate_witness :
  let w1 := on_speech_recognized init (lit "first") (lit "en") in
  let w2 := on_speech_recognized w1 (lit "second") (lit "en") in
  translation
    (current_subtitle
       (on_translation_finished w1 (lit "first") (lit "one") (lit "en")))
  = lit "one"
  /\ on_translation_finished w2 (lit "first") (lit "one") (lit "en") = w2
  /\ on_translation_failed w2 (lit "first") (lit "timeout") = w2.
Proof.
  intros w1 w2. split.
  - pose proof
      (proj1 (translation_result_equality_gate w1 (lit "first") (lit "one")
                (lit "en") (lit "timeout")) eq_refl) as [H _].
    rewrite H. reflexivity.
  - apply (proj2 (translation_result_equality_gate w2 (lit "first")
                    (lit "one") (lit "en") (lit "timeout"))).
    vm_compute. discriminate.
Defined.

(** C2, as stated, fails: for a text without a visible character the slots
    are written but no translation task is submitted, because
    [add_translation_task] drops such a text. *)
Lemma blank_text_submits_no_task :
  let w := on_speech_recognized init (lit " ") (lit "en") in
  current_subtitle w = mk_subtitle (lit " ") pending_marker (lit "en")
  /\ translation_worker init = Some (mk_worker [])
  /\ translation_worker w = Some (mk_worker [])
  /\ ~ (exists tw,
          translation_worker w = Some tw
          /\ In (lit " ", lit "en") (request_queue tw)).
Proof.
  vm_compute. repeat split.
  intros [tw [Htw Hin]]. inversion Htw; subst tw. exact Hin.
Qed.

End Subtitles.

(** ** Transcription of an utterance *)

Section Transcription.

Import DraggableSubtitleWindow WhisperSpeechRecognizer.

Lemma long_text_test (t : str) :
  truthy t && (1 <? length t) = true <-> 1 < length t.
Proof.
  rewrite andb_true_iff, Nat.ltb_lt. split; [tauto|].
  intros H. split; [|exact H]. destruct t; [inversion H|reflexivity].
Qed.

(** The only [text_recognized] signal a call can emit carries the trimmed
    transcription, which is then longer than one character. *)
Lemma text_recognized_inv (env : environment) (files : list path)
  (audio_data : bytes) (t l : str) :
  In (text_recognized t l) (snd (_process_speech env files audio_data)) ->
  exists result,
    transcribe env = returns result
    /\ t = strip (text result)
    /\ 1 < length t.
Proof.
  unfold _process_speech.
  destruct (NamedTemporaryFile env) as [p|]; simpl;
    [|intros [H|[]]; discriminate H].
  destruct (wave_write env) as [u|]; simpl;
    [|intros [H|[]]; discriminate H].
  destruct (transcribe env) as [result|]; simpl;
    [|intros [H|[H|[]]]; discriminate H].
  destruct (truthy (strip (text result)) && (1 <? length (strip (text result))))
    eqn:Hlong; simpl.
  - intros [H|[H|[H|[]]]]; try discriminate H.
    inversion H; subst. exists result.
    repeat split. now apply long_text_test.
  - intros [H|[H|[]]]; discriminate H.
Qed.

(** C2, amended: every call writes the slots as stated, the two translation
    callbacks never write [current.original], and a task with the same
    [(text, language)] pair is appended to the worker's queue whenever the
    text has a character that is not whitespace; a text of whitespace only
    submits nothing.  Every text the recognizer emits is of the first
    kind. *)
Theorem speech_recognized_slots_and_task
  (w : window) (text detected_language : str) :
  let w' := on_speech_recognized w text detected_language in
  current_subtitle w' = mk_subtitle text pending_marker detected_language
  /\ (original (current_subtitle w) <> [] ->
      previous_subtitle w' = current_subtitle w)
  /\ (original (current_subtitle w) = [] ->
      previous_subtitle w' = previous_subtitle w)
  /\ (forall o t l e,
        original (current_subtitle (on_translation_finished w o t l))
        = original (current_subtitle w)
        /\ original (current_subtitle (on_translation_failed w o e))
           = original (current_subtitle w))
  /\ (forall tw,
        translation_worker w = Some tw ->
        (strip text <> [] ->
         translation_worker w'
         = Some (mk_worker (request_queue tw ++ [(text, detected_language)])))
        /\ (strip text = [] -> translation_worker w' = Some tw))
  /\ (forall env files audio_data,
        In (text_recognized text detected_language)
          (snd (_process_speech env files audio_data)) ->
        strip text <> []).
Proof.
  intros w'. subst w'. unfold on_speech_recognized. simpl.
  split; [destruct (translation_worker w); reflexivity|].
  split.
  { intros H. apply truthy_nonempty in H. rewrite H.
    destruct (translation_worker w); reflexivity. }
  split.
  { intros H. rewrite H. simpl. destruct (translation_worker w); reflexivity. }
  split.
  { intros o t l e. unfold on_translation_finished, on_translation_failed.
    destruct (eqb (original (current_subtitle w)) o); auto. }
  split.
  { intros tw Htw. rewrite Htw. simpl. split; intros H.
    - now rewrite add_translation_task_nonblank.
    - now rewrite add_translation_task_blank. }
  intros env files audio_data Hin.
  apply text_recognized_inv in Hin as [result [_ [Ht Hlen]]].
  subst text. rewrite strip_idempotent.
  intros Hnil. rewrite Hnil in Hlen. inversion Hlen.
Qed.

Lemma speech_recognized_slots_and_task_witness :
  let w :=
    on_speech_recognized DraggableSubtitleWindow.init (lit "first")
      (lit "en") in
  previous_subtitle (on_speech_recognized w (lit "second") (lit "zh"))
  = mk_subtitle (lit "first") pending_marker (lit "en")
  /\ translation_worker (on_speech_recognized w (lit "second") (lit "zh"))
     = Some (mk_worker [(lit "first", lit "en"); (lit "second", lit "zh")]).
Proof.
  intros w.
  destruct (speech_recognized_slots_and_task w (lit "second") (lit "zh"))
    as [_ [Hprev [_ [_ [Htask _]]]]].
  split.
  - rewrite Hprev; [reflexivity|vm_compute; discriminate].
  - destruct (Htask (mk_worker [(lit "first", lit "en")]) eq_refl)
      as [Hsubmit _].
    rewrite Hsubmit; [reflexivity|vm_compute; discriminate].
Defined.

(** C10: when the transcription call returns, a [text_recognized] signal
    is emitted exactly when the trimmed text is longer than one character,
    and it carries that text; otherwise the signals of the call, delivered
    to the window, leave both subtitle slots and the translation queue as
    they were.  The call itself always returns, so the loop goes on. *)
Theorem recognition_emitted_iff_longer_than_one
  (env : environment) (files : list path) (audio_data : bytes)
  (temp_path : path) (result : transcription) :
  NamedTemporaryFile env = returns temp_path ->
  wave_write env = returns tt ->
  transcribe env = returns result ->
  let t := strip (text result) in
  let signals := snd (_process_speech env files audio_data) in
  ((exists t' l, In (text_recognized t' l) signals) <-> 1 < length t)
  /\ (forall t' l, In (text_recognized t' l) signals -> t' = t)
  /\ (length t <= 1 ->
      forall w,
        previous_subtitle (deliver_all w signals) = previous_subtitle w
        /\ current_subtitle (deliver_all w signals) = current_subtitle w
        /\ translation_worker (deliver_all w signals) = translation_worker w).
Proof.
  intros Htmp Hwave Htr t signals.
  assert (Hinv : forall t' l, In (text_recognized t' l) signals ->
                              t' = t /\ 1 < length t).
  { intros t' l Hin. apply text_recognized_inv in Hin as [r [Hr [Ht Hlen]]].
    rewrite Htr in Hr. inversion Hr; subst r. subst t'. auto. }
  split; [split|split].
  - intros [t' [l Hin]]. exact (proj2 (Hinv t' l Hin)).
  - intros Hlen. subst signals. unfold _process_speech.
    rewrite Htmp, Hwave, Htr. fold t.
    rewrite (proj2 (long_text_test t) Hlen). simpl. eauto.
  - intros t' l Hin. exact (proj1 (Hinv t' l Hin)).
  - intros Hshort w. subst signals. unfold _process_speech.
    rewrite Htmp, Hwave, Htr. fold t.
    destruct (truthy t && (1 <? length t)) eqn:Hlong.
    + apply long_text_test in Hlong. lia.
    + simpl. auto.
Qed.

Lemma recognition_emitted_iff_longer_than_one_witness :
  let env text :=
    mk_environment (returns (lit "/tmp/tmpk3.wav")) (returns tt)
      (returns (mk_transcription text (Some (lit "en")))) (returns tt) in
  (exists t' l,
      In (text_recognized t' l)
        (snd (_process_speech (env (lit " Hello. ")) [] [])))
  /\ current_subtitle
       (deliver_all DraggableSubtitleWindow.init
          (snd (_process_speech (env (lit " . ")) [] [])))
     = current_subtitle DraggableSubtitleWindow.init.
Proof.
  intros env. split.
  - apply (proj1 (recognition_emitted_iff_longer_than_one
                    (env (lit " Hello. ")) [] [] (lit "/tmp/tmpk3.wav")
                    (mk_transcription (lit " Hello. ") (Some (lit "en")))
                    eq_refl eq_refl eq_refl)).
    vm_compute. lia.
  - apply (proj2 (proj2 (recognition_emitted_iff_longer_than_one
                    (env (lit " . ")) [] [] (lit "/tmp/tmpk3.wav")
                    (mk_transcription (lit " . ") (Some (lit "en")))
                    eq_refl eq_refl eq_refl))).
    vm_compute. lia.
Defined.

Lemma transcribe_raises_keeps_file (env : environment) (files : list path)
  (audio_data : bytes) (temp_path : path) :
  NamedTemporaryFile env = returns temp_path ->
  wave_write env = returns tt ->
  transcribe env = raises ->
  fst (_process_speech env files audio_data) = temp_path :: files.
Proof.
  intros Htmp Hwave Htr. unfold _process_speech.
  now rewrite Htmp, Hwave, Htr.
Qed.

Lemma transcribe_returns_removes_file (env : environment) (files : list path)
  (audio_data : bytes) (temp_path : path) (result : transcription) :
  NamedTemporaryFile env = returns temp_path ->
  wave_write env = returns tt ->
  transcribe env = returns result ->
  unlink env = returns tt ->
  ~ In temp_path (fst (_process_speech env files audio_data)).
Proof.
  intros Htmp Hwave Htr Hun. unfold _process_speech.
  rewrite Htmp, Hwave, Htr. unfold try_unlink. rewrite Hun.
  assert (Hout : ~ In temp_path
                   (filter (fun p => negb (eqb p temp_path))
                      (temp_path :: files))).
  { intros Hin. apply filter_In in Hin as [_ Hneq].
    apply negb_true_iff, eqb_neq in Hneq. now apply Hneq. }
  destruct (truthy _ && _); exact Hout.
Qed.

(** C9 fails on the code: when [model.transcribe] raises, control goes to
    the handler of the outer [try], past the [os.unlink] that follows the
    call, and the temporary file stays on disk. *)
Theorem temp_file_left_when_transcribe_raises :
  let env :=
    mk_environment (returns (lit "/tmp/tmpk3.wav")) (returns tt) raises
      (returns tt) in
  _process_speech env [] []
  = ([lit "/tmp/tmpk3.wav"],
     [status_updated status_recognizing; status_updated status_error]).
Proof. reflexivity. Qed.

End Transcription.

(** ** Segmentation *)

Section Segmentation.

Import WhisperSpeechRecognizer.

Local Arguments should_process : simpl never.
Local Arguments reset_after_speech : simpl never.

(** *** Durations as frame counts *)

(** Closes a goal on [should_process] with a hypothesis on it whose frame
    counts are written differently. *)
Ltac same_counts H :=
  match goal with
  | |- should_process ?a ?b _ = _ =>
      match type of H with
      | should_process ?a' ?b' _ = _ =>
          replace a with a' by lia; replace b with b' by lia; exact H
      end
  end.

Ltac threshold_as_count :=
  intros; apply Bool.eq_iff_eq_true;
  rewrite Nat.leb_le; unfold Qle_bool, duration, chunk_size, sample_rate;
  cbn; rewrite Z.leb_le; lia.

Lemma silence_duration_reached (n : nat) :
  Qle_bool silence_duration_threshold (duration n) = (19 <=? n).
Proof. threshold_as_count. Qed.

Lemma min_speech_duration_reached (n : nat) :
  Qle_bool min_speech_duration (duration n) = (8 <=? n).
Proof. threshold_as_count. Qed.

Lemma max_speech_duration_reached (n : nat) :
  Qle_bool max_speech_duration (duration n) = (125 <=? n).
Proof. threshold_as_count. Qed.

Lemma one_second_reached (n : nat) : Qle_bool 1.0 (duration n) = (16 <=? n).
Proof. threshold_as_count. Qed.

Lemma short_silence_reached (n : nat) :
  Qle_bool 0.8 (duration n) = (13 <=? n).
Proof. threshold_as_count. Qed.

Lemma short_utterance_rule_counts (buffered silent_run : nat) (v : Q) :
  short_utterance_rule buffered silent_run v
  = (16 <=? buffered) && (13 <=? silent_run)
    && negb (Qle_bool (silence_threshold * 0.7) v).
Proof.
  unfold short_utterance_rule.
  now rewrite one_second_reached, short_silence_reached.
Qed.

Lemma should_process_counts (buffered silent_run : nat) (v : Q) :
  should_process buffered silent_run v
  = (19 <=? silent_run) && (8 <=? buffered)
    || (125 <=? buffered)
    || short_utterance_rule buffered silent_run v.
Proof.
  unfold should_process. rewrite short_utterance_rule_counts.
  destruct buffered as [|k].
  - change (0 <? 0) with false. cbv iota.
    change (Qle_bool min_speech_duration 0) with false.
    change (Qle_bool max_speech_duration 0) with false.
    change (Qle_bool 1.0 0) with false.
    simpl. rewrite !andb_false_r. reflexivity.
  - change (0 <? S k) with true. cbv iota.
    rewrite silence_duration_reached, min_speech_duration_reached,
      max_speech_duration_reached, one_second_reached, short_silence_reached.
    destruct ((19 <=? silent_run) && (8 <=? S k)); [reflexivity|].
    destruct (125 <=? S k); [reflexivity|].
    destruct ((16 <=? S k) && (13 <=? silent_run) && _); reflexivity.
Qed.

(** *** One iteration *)

Lemma on_frame_skipped (st : recognizer) (data : bytes) :
  computed_volume data = None -> on_frame st data = (st, []).
Proof.
  unfold computed_volume, on_frame.
  destruct (nonempty data); simpl; [|reflexivity].
  destruct (frombuffer data); [discriminate|reflexivity].
Qed.

Lemma on_frame_volume (st : recognizer) (data : bytes) (v : Q) :
  computed_volume data = Some v ->
  on_frame st data =
  let '(st1, started) := detect st data v in
  let effects := emit (volume_updated (int_of v)) :: started in
  if is_speaking st1
     && should_process (length (audio_buffer st1)) (silence_frames st1) v
     && nonempty (audio_buffer st1)
  then (reset_after_speech st1,
        effects ++ [call_process_speech (concat (audio_buffer st1))])
  else (st1, effects).
Proof.
  unfold computed_volume, on_frame.
  destruct (nonempty data); simpl; [|discriminate].
  destruct (frombuffer data); [|discriminate].
  intros H. now inversion H.
Qed.

Lemma utterances_app (a b : list effect) :
  utterances (a ++ b) = utterances a ++ utterances b.
Proof.
  induction a as [|[s|u] a IH]; simpl; [reflexivity|exact IH|now rewrite IH].
Qed.

Lemma emits_utterance_app (a b : list effect) :
  emits_utterance (a ++ b) = emits_utterance a || emits_utterance b.
Proof.
  unfold emits_utterance. rewrite utterances_app.
  now destruct (utterances a).
Qed.

Lemma process_audio_stream_app (st : recognizer) (a b : list queue_event) :
  _process_audio_stream st (a ++ b) =
  let '(st1, e1) := _process_audio_stream st a in
  let '(st2, e2) := _process_audio_stream st1 b in
  (st2, e1 ++ e2).
Proof.
  revert st. induction a as [|ev a IH]; intros st; simpl.
  - now destruct (_process_audio_stream st b).
  - destruct (iteration st ev) as [st1 e1]. rewrite IH.
    destruct (_process_audio_stream st1 a) as [st2 e2].
    destruct (_process_audio_stream st2 b) as [st3 e3].
    now rewrite app_assoc.
Qed.

(** A frame that is not above the threshold leaves an idle recognizer idle
    and hands nothing to the transcription. *)
Lemma idle_stays_idle (st : recognizer) (ev : queue_event) :
  is_speaking st = false ->
  (forall data v, ev = frame data -> computed_volume data = Some v ->
                  Qle_bool v silence_threshold = true) ->
  is_speaking (fst (iteration st ev)) = false
  /\ utterances (snd (iteration st ev)) = [].
Proof.
  intros Hidle Hquiet. destruct ev as [data|]; simpl.
  - destruct (computed_volume data) as [v|] eqn:Hv.
    + rewrite (on_frame_volume st data v Hv). unfold detect.
      rewrite (Hquiet data v eq_refl Hv), Hidle. simpl. auto.
    + rewrite (on_frame_skipped st data Hv). auto.
  - unfold on_timeout. rewrite Hidle. simpl. auto.
Qed.

Lemma below_is_not_above (data : bytes) (v : Q) :
  below_threshold data = true -> computed_volume data = Some v ->
  Qle_bool v silence_threshold = true.
Proof.
  unfold below_threshold. intros H Hv. rewrite Hv in H.
  apply negb_true_iff in H. apply Qle_bool_iff, Qlt_le_weak, Qnot_le_lt.
  intros Hle. apply Qle_bool_iff in Hle. congruence.
Qed.

Lemma idle_run (evs : list queue_event) (st : recognizer) :
  is_speaking st = false ->
  (forall data, In (frame data) evs -> below_threshold data = true) ->
  is_speaking (fst (_process_audio_stream st evs)) = false
  /\ utterances (snd (_process_audio_stream st evs)) = [].
Proof.
  revert st. induction evs as [|ev evs IH]; intros st Hidle Hbelow; simpl.
  - auto.
  - destruct (idle_stays_idle st ev Hidle) as [Hidle1 Hnone1].
    { intros data v -> Hv. apply (below_is_not_above data v); [|exact Hv].
      apply Hbelow. now left. }
    destruct (iteration st ev) as [st1 e1]. simpl in Hidle1, Hnone1.
    destruct (IH st1 Hidle1) as [Hidle2 Hnone2].
    { intros data Hin. apply Hbelow. now right. }
    destruct (_process_audio_stream st1 evs) as [st2 e2]. simpl in *.
    split; [exact Hidle2|]. now rewrite utterances_app, Hnone1, Hnone2.
Qed.

(** C8: when every volume computed for the blocks of the input is below
    the silence threshold, with queue timeouts anywhere in between, the loop
    started from the initial state hands no utterance to [_process_speech],
    the only place where the transcription is called, and is idle after
    every prefix of the input. *)
Theorem silence_never_emits (evs : list queue_event) :
  (forall data, In (frame data) evs -> below_threshold data = true) ->
  utterances (snd (_process_audio_stream init evs)) = []
  /\ forall n,
       is_speaking (fst (_process_audio_stream init (firstn n evs))) = false
       /\ utterances (snd (_process_audio_stream init (firstn n evs))) = [].
Proof.
  intros Hbelow. split.
  - now apply idle_run.
  - intros n. apply idle_run; [reflexivity|].
    intros data Hin. apply Hbelow.
    rewrite <- (firstn_skipn n evs). apply in_or_app. now left.
Qed.

Lemma silence_never_emits_witness :
  utterances
    (snd (_process_audio_stream init
            [frame quiet_frame; timeout; frame zero_frame; frame quiet_frame]))
  = [].
Proof.
  apply (silence_never_emits
           [frame quiet_frame; timeout; frame zero_frame; frame quiet_frame]).
  intros data [H|[H|[H|[H|[]]]]]; inversion H; vm_compute; reflexivity.
Defined.

(** *** Runs of speech and of silence *)

Lemma above_threshold_volume (data : bytes) :
  above_threshold data = true ->
  exists v, computed_volume data = Some v
            /\ Qle_bool v silence_threshold = false.
Proof.
  unfold above_threshold. destruct (computed_volume data) as [v|];
    [|discriminate].
  intros H. exists v. split; [reflexivity|now apply negb_true_iff].
Qed.

Lemma silent_volume (data : bytes) :
  silent data = true ->
  exists v, computed_volume data = Some v
            /\ Qle_bool v silence_threshold = true.
Proof.
  unfold silent. destruct (computed_volume data) as [v|]; [|discriminate].
  intros H. now exists v.
Qed.

Lemma nonempty_snoc {A : Type} (l : list A) (x : A) :
  nonempty (l ++ [x]) = true.
Proof. now destruct l. Qed.

(** The frame that starts speech: the buffer is rebound to that frame
    alone, whatever it held. *)
Lemma speech_start (st : recognizer) (data : bytes) :
  is_speaking st = false -> above_threshold data = true ->
  fst (on_frame st data) = mk_recognizer [data] 0 true
  /\ utterances (snd (on_frame st data)) = [].
Proof.
  intros Hidle Habove.
  destruct (above_threshold_volume data Habove) as [v [Hv Hloud]].
  rewrite (on_frame_volume st data v Hv). unfold detect.
  rewrite Hloud, Hidle. simpl. auto.
Qed.

Lemma loud_frame_step (st : recognizer) (data : bytes) :
  is_speaking st = true -> above_threshold data = true ->
  length (audio_buffer st) + 1 < 125 ->
  fst (on_frame st data) = mk_recognizer (audio_buffer st ++ [data]) 0 true
  /\ utterances (snd (on_frame st data)) = [].
Proof.
  intros Hsp Habove Hlen.
  destruct (above_threshold_volume data Habove) as [v [Hv Hloud]].
  rewrite (on_frame_volume st data v Hv). unfold detect.
  rewrite Hloud, Hsp. simpl.
  rewrite should_process_counts, short_utterance_rule_counts, length_app.
  simpl length.
  replace (125 <=? length (audio_buffer st) + 1) with false
    by (symmetry; apply Nat.leb_gt; lia).
  rewrite andb_false_r. simpl. auto.
Qed.

Lemma loud_run (loud : list bytes) (st : recognizer) :
  is_speaking st = true -> silence_frames st = 0 ->
  forallb above_threshold loud = true ->
  length (audio_buffer st) + length loud < 125 ->
  fst (_process_audio_stream st (map frame loud))
  = mk_recognizer (audio_buffer st ++ loud) 0 true
  /\ utterances (snd (_process_audio_stream st (map frame loud))) = [].
Proof.
  revert st. induction loud as [|d loud IH]; intros st Hsp Hsil Hall Hlen.
  - simpl. rewrite app_nil_r. destruct st; simpl in *; subst. auto.
  - simpl in Hall, Hlen. apply andb_true_iff in Hall as [Hd Hall].
    destruct (loud_frame_step st d Hsp Hd) as [Hst He]; [lia|].
    simpl. destruct (on_frame st d) as [st1 e1]. simpl in Hst, He. subst st1.
    destruct (IH (mk_recognizer (audio_buffer st ++ [d]) 0 true)
                eq_refl eq_refl Hall) as [Hst2 He2].
    { simpl. rewrite length_app. simpl. lia. }
    destruct (_process_audio_stream _ (map frame loud)) as [st2 e2].
    simpl in *. rewrite <- app_assoc in Hst2. split; [exact Hst2|].
    now rewrite utterances_app, He, He2.
Qed.

Lemma loud_phase (loud : list bytes) :
  loud <> [] -> forallb above_threshold loud = true -> length loud < 125 ->
  fst (_process_audio_stream init (map frame loud)) = mk_recognizer loud 0 true
  /\ utterances (snd (_process_audio_stream init (map frame loud))) = [].
Proof.
  destruct loud as [|d loud]; [congruence|]. intros _ Hall Hlen.
  simpl in Hall, Hlen. apply andb_true_iff in Hall as [Hd Hall].
  destruct (speech_start init d eq_refl Hd) as [Hst He].
  simpl. destruct (on_frame init d) as [st1 e1]. simpl in Hst, He. subst st1.
  destruct (loud_run loud (mk_recognizer [d] 0 true) eq_refl eq_refl Hall)
    as [Hst2 He2]; [simpl; lia|].
  destruct (_process_audio_stream _ (map frame loud)) as [st2 e2].
  simpl in *. split; [exact Hst2|]. now rewrite utterances_app, He, He2.
Qed.

(** Rule 2 during speech: the 125th buffered frame closes the utterance. *)
Lemma loud_phase_closes_at (head rest : list bytes) (d : bytes) :
  length head = 124 -> forallb above_threshold head = true ->
  above_threshold d = true ->
  emits_utterance
    (snd (_process_audio_stream init (map frame (head ++ d :: rest)))) = true.
Proof.
  intros Hl Hhead Hd.
  destruct (loud_phase head) as [Hst He];
    [intros E; rewrite E in Hl; discriminate|exact Hhead|lia|].
  rewrite map_app, process_audio_stream_app.
  destruct (_process_audio_stream init (map frame head)) as [st1 e1].
  simpl in Hst, He. subst st1.
  change (map frame (d :: rest)) with (frame d :: map frame rest).
  cbn [_process_audio_stream iteration].
  destruct (above_threshold_volume d Hd) as [v [Hv Hloud]].
  rewrite (on_frame_volume _ d v Hv). unfold detect. rewrite Hloud.
  cbn [negb is_speaking audio_buffer silence_frames andb].
  rewrite should_process_counts, length_app, Hl, nonempty_snoc.
  change (125 <=? 124 + length [d]) with true.
  rewrite orb_true_r. cbn [orb andb].
  destruct (_process_audio_stream _ (map frame rest)) as [st2 e2].
  cbn [snd]. rewrite !emits_utterance_app.
  unfold emits_utterance at 2. simpl. now rewrite orb_true_r.
Qed.

Lemma loud_phase_closes (loud : list bytes) :
  forallb above_threshold loud = true -> 125 <= length loud ->
  emits_utterance (snd (_process_audio_stream init (map frame loud))) = true.
Proof.
  intros Hall Hlen.
  assert (Hl : length (firstn 124 loud) = 124)
    by (rewrite length_firstn; lia).
  assert (Ht : length (skipn 124 loud) = length loud - 124)
    by apply length_skipn.
  rewrite <- (firstn_skipn 124 loud) in Hall |- *.
  rewrite forallb_app in Hall. apply andb_true_iff in Hall as [Hhead Htail].
  destruct (skipn 124 loud) as [|d rest]; [simpl in Ht; lia|].
  simpl in Htail. apply andb_true_iff in Htail as [Hd _].
  now apply loud_phase_closes_at.
Qed.

Lemma silent_frame_step (st : recognizer) (data : bytes) (v : Q) :
  is_speaking st = true -> computed_volume data = Some v ->
  Qle_bool v silence_threshold = true ->
  let st1 :=
    mk_recognizer (audio_buffer st ++ [data]) (S (silence_frames st)) true in
  on_frame st data =
  if should_process (length (audio_buffer st) + 1) (S (silence_frames st)) v
  then (reset_after_speech st1,
        [emit (volume_updated (int_of v));
         call_process_speech (concat (audio_buffer st ++ [data]))])
  else (st1, [emit (volume_updated (int_of v))]).
Proof.
  intros Hsp Hv Hquiet st1.
  rewrite (on_frame_volume st data v Hv). unfold detect.
  rewrite Hquiet, Hsp. simpl. rewrite nonempty_snoc, andb_true_r, length_app.
  reflexivity.
Qed.

(** During speech, a run of silent frames closes the utterance exactly when
    the closure conditions hold at one of its frames. *)
Lemma quiet_run (quiet : list bytes) (st : recognizer) :
  is_speaking st = true -> forallb silent quiet = true ->
  emits_utterance (snd (_process_audio_stream st (map frame quiet))) = true
  <-> exists i data v,
        nth_error quiet i = Some data
        /\ computed_volume data = Some v
        /\ should_process (length (audio_buffer st) + S i)
             (silence_frames st + S i) v = true.
Proof.
  revert st. induction quiet as [|d quiet IH]; intros st Hsp Hall.
  - simpl. split; [discriminate|].
    intros [[|i] [data [v [Hnth _]]]]; discriminate Hnth.
  - simpl in Hall. apply andb_true_iff in Hall as [Hd Hall].
    destruct (silent_volume d Hd) as [v [Hv Hquiet]].
    simpl map. simpl _process_audio_stream.
    rewrite (silent_frame_step st d v Hsp Hv Hquiet).
    destruct (should_process (length (audio_buffer st) + 1)
                (S (silence_frames st)) v) eqn:Hclose.
    + destruct (_process_audio_stream _ (map frame quiet)) as [st2 e2].
      simpl. split; [intros _|reflexivity].
      exists 0, d, v. repeat split; [exact Hv|]. same_counts Hclose.
    + specialize (IH (mk_recognizer (audio_buffer st ++ [d])
                        (S (silence_frames st)) true) eq_refl Hall).
      destruct (_process_audio_stream _ (map frame quiet)) as [st2 e2].
      cbn [snd audio_buffer silence_frames] in IH |- *.
      rewrite length_app in IH. cbn [length] in IH.
      change (emits_utterance (emit (volume_updated (int_of v)) :: e2))
        with (emits_utterance e2).
      rewrite IH. split.
      * intros [i [data [v' [Hnth [Hv' Hp]]]]].
        exists (S i), data, v'. repeat split; [exact Hnth|exact Hv'|].
        same_counts Hp.
      * intros [[|i] [data [v' [Hnth [Hv' Hp]]]]].
        -- simpl in Hnth. inversion Hnth; subst data.
           rewrite Hv in Hv'. inversion Hv'; subst v'.
           assert (Hp' : should_process (length (audio_buffer st) + 1)
                           (S (silence_frames st)) v = true)
             by same_counts Hp.
           congruence.
        -- exists i, data, v'. repeat split; [exact Hnth|exact Hv'|].
           same_counts Hp.
Qed.

(** *** Speech followed by silence *)

Lemma silence_duration_le (n : nat) :
  (silence_duration_threshold <= duration n)%Q <-> 19 <= n.
Proof.
  now rewrite <- Qle_bool_iff, silence_duration_reached, Nat.leb_le.
Qed.

Lemma min_speech_duration_le (n : nat) :
  (min_speech_duration <= duration n)%Q <-> 8 <= n.
Proof.
  now rewrite <- Qle_bool_iff, min_speech_duration_reached, Nat.leb_le.
Qed.

Lemma max_speech_duration_le (n : nat) :
  (max_speech_duration <= duration n)%Q <-> 125 <= n.
Proof.
  now rewrite <- Qle_bool_iff, max_speech_duration_reached, Nat.leb_le.
Qed.

Lemma silent_nth (quiet : list bytes) (i : nat) :
  forallb silent quiet = true -> i < length quiet ->
  exists data v,
    nth_error quiet i = Some data /\ computed_volume data = Some v.
Proof.
  revert i. induction quiet as [|d quiet IH]; intros i Hall Hi; simpl in *.
  - lia.
  - apply andb_true_iff in Hall as [Hd Hall]. destruct i as [|i].
    + destruct (silent_volume d Hd) as [v [Hv _]]. now exists d, v.
    + apply IH; [exact Hall|lia].
Qed.

Lemma should_process_true (buffered silent_run : nat) (v : Q) :
  should_process buffered silent_run v = true
  <-> (19 <= silent_run /\ 8 <= buffered)
      \/ 125 <= buffered
      \/ short_utterance_rule buffered silent_run v = true.
Proof.
  rewrite should_process_counts, !orb_true_iff, andb_true_iff, !Nat.leb_le.
  tauto.
Qed.

(** C5, as stated, fails: one frame of speech (0.064 s, shorter than the
    minimum and than the maximum) followed by 19 frames of silence (1.216 s)
    is handed to the transcription, because the buffered duration that the
    silence rule compares with the minimum counts the silent frames too. *)
Lemma short_speech_long_silence_emits :
  let effects :=
    snd (_process_audio_stream init
           (map frame ([loud_frame] ++ repeat quiet_frame 19))) in
  ~ (emits_utterance effects = true
     <-> ((min_speech_duration <= duration 1)%Q
          /\ (silence_duration_threshold <= duration 19)%Q)
         \/ (max_speech_duration <= duration 1)%Q).
Proof.
  intros effects [Himp _].
  assert (Hemit : emits_utterance effects = true) by (vm_compute; reflexivity).
  destruct (Himp Hemit) as [[H _]|H];
    apply Qle_bool_iff in H; vm_compute in H; discriminate H.
Qed.

(** The short-utterance rule closes before the silence threshold is
    reached: 8 frames of speech and 13 frames of digital silence. *)
Lemma short_utterance_rule_emits_early :
  emits_utterance
    (snd (_process_audio_stream init
            (map frame (repeat loud_frame 8 ++ repeat zero_frame 13)))) = true
  /\ Qle_bool silence_duration_threshold (duration 13) = false.
Proof. split; vm_compute; reflexivity. Qed.

(** C5, amended: for a non-empty run of frames above the threshold (duration
    D) followed by a run of silent frames (duration S), fed to the loop from
    its initial state, an utterance is emitted if and only if
    S >= silenceDurationThreshold and D + S >= minSpeechDuration, or
    D + S >= maxSpeechDuration, or the short-utterance rule holds at one of
    the silent frames (at least 1.0 s buffered, at least 0.8 s of silence,
    that frame's volume below 0.7 times the threshold).  In particular one is
    emitted whenever D >= minSpeechDuration and S >= silenceDurationThreshold,
    or D >= maxSpeechDuration. *)
Theorem utterance_emitted_iff (loud quiet : list bytes) :
  loud <> [] ->
  forallb above_threshold loud = true ->
  forallb silent quiet = true ->
  let buffered := length loud + length quiet in
  let effects :=
    snd (_process_audio_stream init (map frame (loud ++ quiet))) in
  (emits_utterance effects = true
   <-> ((silence_duration_threshold <= duration (length quiet))%Q
        /\ (min_speech_duration <= duration buffered)%Q)
       \/ (max_speech_duration <= duration buffered)%Q
       \/ (exists i data v,
              nth_error quiet i = Some data
              /\ computed_volume data = Some v
              /\ short_utterance_rule (length loud + S i) (S i) v = true))
  /\ (((min_speech_duration <= duration (length loud))%Q
       /\ (silence_duration_threshold <= duration (length quiet))%Q)
      \/ (max_speech_duration <= duration (length loud))%Q ->
      emits_utterance effects = true).
Proof.
  intros Hne Hloud Hquiet buffered effects.
  assert (Hiff :
    emits_utterance effects = true
    <-> ((silence_duration_threshold <= duration (length quiet))%Q
         /\ (min_speech_duration <= duration buffered)%Q)
        \/ (max_speech_duration <= duration buffered)%Q
        \/ (exists i data v,
               nth_error quiet i = Some data
               /\ computed_volume data = Some v
               /\ short_utterance_rule (length loud + S i) (S i) v = true)).
  { subst effects buffered.
    rewrite silence_duration_le, min_speech_duration_le,
      max_speech_duration_le.
    rewrite map_app, process_audio_stream_app.
    destruct (le_lt_dec 125 (length loud)) as [Hlong|Hshort].
    - pose proof (loud_phase_closes loud Hloud Hlong) as Hclose.
      destruct (_process_audio_stream init (map frame loud)) as [st1 e1].
      destruct (_process_audio_stream st1 (map frame quiet)) as [st2 e2].
      simpl in Hclose |- *. rewrite emits_utterance_app, Hclose. simpl.
      split; [intros _; right; left; lia|reflexivity].
    - destruct (loud_phase loud Hne Hloud Hshort) as [Hst He].
      destruct (_process_audio_stream init (map frame loud)) as [st1 e1].
      simpl in Hst, He. subst st1.
      pose proof (quiet_run quiet (mk_recognizer loud 0 true) eq_refl Hquiet)
        as Hrun.
      destruct (_process_audio_stream _ (map frame quiet)) as [st2 e2].
      cbn [snd audio_buffer silence_frames] in Hrun |- *.
      rewrite emits_utterance_app. unfold emits_utterance at 1. rewrite He.
      cbn [nonempty orb]. rewrite Hrun. split.
      + intros [i [data [v [Hnth [Hv Hp]]]]].
        assert (Hi : i < length quiet)
          by (apply nth_error_Some; congruence).
        apply should_process_true in Hp as [[H1 H2]|[H|H]].
        * left. lia.
        * right. left. lia.
        * right. right. now exists i, data, v.
      + intros [[H1 H2]|[H|[i [data [v [Hnth [Hv Hp]]]]]]].
        * destruct (silent_nth quiet (length quiet - 1) Hquiet)
            as [data [v [Hnth Hv]]]; [lia|].
          exists (length quiet - 1), data, v.
          repeat split; [exact Hnth|exact Hv|].
          apply should_process_true. left. lia.
        * destruct (silent_nth quiet (length quiet - 1) Hquiet)
            as [data [v [Hnth Hv]]]; [lia|].
          exists (length quiet - 1), data, v.
          repeat split; [exact Hnth|exact Hv|].
          apply should_process_true. right. left. lia.
        * exists i, data, v. repeat split; [exact Hnth|exact Hv|].
          apply should_process_true. right. right. exact Hp. }
  split; [exact Hiff|].
  intros Hclaim. apply Hiff. subst buffered.
  rewrite silence_duration_le, min_speech_duration_le, max_speech_duration_le.
  rewrite silence_duration_le, min_speech_duration_le,
    max_speech_duration_le in Hclaim.
  destruct Hclaim as [[H1 H2]|H]; [left|right; left]; lia.
Qed.

Lemma utterance_emitted_iff_witness :
  emits_utterance
    (snd (_process_audio_stream init
            (map frame (repeat loud_frame 8 ++ repeat quiet_frame 19)))) = true.
Proof.
  apply (proj2 (utterance_emitted_iff (repeat loud_frame 8)
                  (repeat quiet_frame 19)
                  ltac:(discriminate) ltac:(vm_compute; reflexivity)
                  ltac:(vm_compute; reflexivity))).
  left. split; apply Qle_bool_iff; vm_compute; reflexivity.
Defined.

(** *** Closure *)

Lemma detect_calls_nothing (st : recognizer) (data : bytes) (v : Q) :
  utterances (snd (detect st data v)) = [].
Proof.
  unfold detect. destruct (negb (Qle_bool v silence_threshold));
    [destruct (negb (is_speaking st))|]; reflexivity.
Qed.

Lemma carryover_duration (n : nat) :
  n <= keep_frames -> (duration n <= 0.3)%Q.
Proof.
  change keep_frames with 4. intros H.
  unfold Qle, duration, chunk_size, sample_rate. cbn. lia.
Qed.

Lemma reset_after_speech_state (st : recognizer) :
  silence_frames (reset_after_speech st) = 0
  /\ is_speaking (reset_after_speech st) = false
  /\ length (audio_buffer (reset_after_speech st)) <= keep_frames
  /\ (keep_frames < length (audio_buffer st) ->
      audio_buffer (reset_after_speech st)
      = skipn (length (audio_buffer st) - keep_frames) (audio_buffer st)).
Proof.
  unfold reset_after_speech. cbn [silence_frames is_speaking audio_buffer].
  destruct (keep_frames <? length (audio_buffer st)) eqn:Hlen.
  - apply Nat.ltb_lt in Hlen. rewrite length_skipn. repeat split; lia.
  - apply Nat.ltb_ge in Hlen. simpl. repeat split; lia.
Qed.

(** A closure by the silence, the maximum-length or the short-utterance
    rule resets the silence counter and keeps at most [keep_frames] frames,
    which is at most 0.3 s. *)
Lemma frame_closure_resets (st : recognizer) (data : bytes) :
  emits_utterance (snd (on_frame st data)) = true ->
  silence_frames (fst (on_frame st data)) = 0
  /\ is_speaking (fst (on_frame st data)) = false
  /\ length (audio_buffer (fst (on_frame st data))) <= keep_frames
  /\ (duration (length (audio_buffer (fst (on_frame st data)))) <= 0.3)%Q.
Proof.
  destruct (computed_volume data) as [v|] eqn:Hv.
  - rewrite (on_frame_volume st data v Hv).
    pose proof (detect_calls_nothing st data v) as Hnone.
    destruct (detect st data v) as [st1 started]. simpl in Hnone.
    destruct (is_speaking st1 && _ && _).
    + intros _. cbn [fst].
      destruct (reset_after_speech_state st1) as [H1 [H2 [H3 _]]].
      split; [exact H1|]. split; [exact H2|]. split; [exact H3|].
      now apply carryover_duration.
    + unfold emits_utterance. simpl. rewrite Hnone. discriminate.
  - rewrite (on_frame_skipped st data Hv). discriminate.
Qed.

(** A closure by the queue-idle rule empties the buffer and leaves the
    silence counter as it is. *)
Lemma timeout_closure_state (st : recognizer) :
  emits_utterance (snd (on_timeout st)) = true ->
  audio_buffer (fst (on_timeout st)) = []
  /\ is_speaking (fst (on_timeout st)) = false
  /\ silence_frames (fst (on_timeout st)) = silence_frames st.
Proof.
  unfold on_timeout.
  destruct (is_speaking st && nonempty (audio_buffer st)); [|discriminate].
  destruct (Qle_bool min_speech_duration _); [auto|discriminate].
Qed.

(** C6 fails on the code for the queue-idle rule: after 8 frames of speech
    and 3 silent frames the counter stands at 3; a queue timeout then closes
    the utterance and the counter is still 3, where a closure by one of the
    other three rules sets it to 0. *)
Theorem queue_idle_closure_keeps_silence_count :
  let st :=
    fst (_process_audio_stream init
           (map frame (repeat loud_frame 8 ++ repeat zero_frame 3))) in
  is_speaking st = true
  /\ silence_frames st = 3
  /\ emits_utterance (snd (on_timeout st)) = true
  /\ silence_frames (fst (on_timeout st)) = 3
  /\ audio_buffer (fst (on_timeout st)) = [].
Proof. vm_compute. repeat split. Qed.

(** C7 fails on the code: the closure by silence of 8 frames of speech
    and 19 quiet frames keeps the last 4 frames in the buffer, and the frame
    that starts the next utterance replaces the buffer by itself alone, so
    the next utterance does not begin with the frames kept. *)
Theorem carryover_dropped_at_next_speech :
  let st :=
    fst (_process_audio_stream init
           (map frame (repeat loud_frame 8 ++ repeat quiet_frame 19))) in
  st = mk_recognizer (repeat quiet_frame 4) 0 false
  /\ fst (on_frame st louder_frame) = mk_recognizer [louder_frame] 0 true
  /\ audio_buffer (fst (on_frame st louder_frame))
     <> audio_buffer st ++ [louder_frame].
Proof.
  vm_compute. repeat split. discriminate.
Qed.

End Segmentation.

(** * Further properties *)

(** ** What cleaning keeps and removes *)

Section CleaningShape.

Import TranslationWorker Vocabulary.

Lemma part_of_refl (s : str) : part_of s s.
Proof. exists [], []. now rewrite app_nil_r. Qed.

Lemma part_of_trans (a b c : str) : part_of a b -> part_of b c -> part_of a c.
Proof.
  intros [l1 [r1 H1]] [l2 [r2 H2]]. exists (l2 ++ l1), (r1 ++ r2).
  subst c b. now rewrite <- !app_assoc.
Qed.

Lemma part_of_length (a b : str) : part_of a b -> length a <= length b.
Proof. intros [l [r ->]]. rewrite !length_app. lia. Qed.

Lemma lstrip_suffix (s : str) : exists l, s = l ++ lstrip s.
Proof.
  induction s as [|c s [l IH]]; simpl; [now exists []|].
  destruct (isspace c); [|now exists []].
  exists (c :: l). simpl. now rewrite <- IH.
Qed.

Lemma rstrip_prefix (s : str) : exists r, s = rstrip s ++ r.
Proof.
  induction s as [|c s [r IH]]; simpl; [now exists []|].
  destruct (rstrip s) as [|d t].
  - destruct (isspace c); [now exists (c :: s)|now exists s].
  - exists r. simpl in *. now rewrite <- IH.
Qed.

Lemma strip_part_of (s : str) : part_of (strip s) s.
Proof.
  unfold strip. destruct (rstrip_prefix s) as [r Hr].
  destruct (lstrip_suffix (rstrip s)) as [l Hl].
  exists l, r. now rewrite app_assoc, <- Hl.
Qed.

Lemma skipn_part_of (n : nat) (s : str) : part_of (skipn n s) s.
Proof.
  exists (firstn n s), []. now rewrite app_nil_r, firstn_skipn.
Qed.

Lemma strip_prefix_part_of (s prefix : str) : part_of (strip_prefix s prefix) s.
Proof.
  unfold strip_prefix. destruct (startswith s prefix); [|apply part_of_refl].
  eapply part_of_trans; [apply strip_part_of|apply skipn_part_of].
Qed.

Lemma strip_prefixes_part_of (prefixes : list str) (s : str) :
  part_of (strip_prefixes prefixes s) s.
Proof.
  unfold strip_prefixes. revert s.
  induction prefixes as [|p l IH]; intros s; simpl; [apply part_of_refl|].
  eapply part_of_trans; [apply IH|apply strip_prefix_part_of].
Qed.

Lemma clean_translation_part_of (s : str) : part_of (_clean_translation s) s.
Proof.
  unfold _clean_translation.
  eapply part_of_trans; [apply strip_part_of|apply strip_prefixes_part_of].
Qed.

(** X1: cleaning only removes characters from the two ends: the cleaned
    translation is a contiguous part of the response, so it is never longer
    and holds no character the response does not hold. *)
Theorem clean_translation_part_of_response (s : str) :
  part_of (_clean_translation s) s
  /\ length (_clean_translation s) <= length s
  /\ forall c, In c (_clean_translation s) -> In c s.
Proof.
  pose proof (clean_translation_part_of s) as H.
  split; [exact H|]. split; [now apply part_of_length|].
  destruct H as [l [r H]]. intros c Hc. rewrite H.
  apply in_or_app. right. apply in_or_app. now left.
Qed.

Lemma lstrip_head (s : str) (c : codepoint) (rest : str) :
  lstrip s = c :: rest -> isspace c = false.
Proof.
  induction s as [|d s IH]; simpl; [discriminate|].
  destruct (isspace d) eqn:Hd; [exact IH|].
  intros H. inversion H; subst. exact Hd.
Qed.

Lemma rstrip_last (s : str) (d : codepoint) :
  rstrip s <> [] -> isspace (last (rstrip s) d) = false.
Proof.
  induction s as [|c s IH]; simpl; [congruence|].
  destruct (rstrip s) as [|x t].
  - destruct (isspace c) eqn:Hc; [congruence|]. intros _. exact Hc.
  - intros _. change (isspace (last (x :: t) d) = false).
    apply IH. discriminate.
Qed.

Lemma lstrip_last (s : str) (d : codepoint) :
  lstrip s <> [] -> last (lstrip s) d = last s d.
Proof.
  induction s as [|c s IH]; simpl; [congruence|].
  destruct (isspace c); [|reflexivity].
  intros H. rewrite (IH H). destruct s; [now elim H|reflexivity].
Qed.

Lemma strip_ends (s : str) (c : codepoint) (rest : str) :
  strip s = c :: rest ->
  isspace c = false /\ isspace (last (c :: rest) c) = false.
Proof.
  unfold strip. intros H. split; [exact (lstrip_head _ _ _ H)|].
  rewrite <- H. rewrite lstrip_last by (rewrite H; discriminate).
  apply rstrip_last. intros E. rewrite E in H. discriminate H.
Qed.

(** X2: a cleaned translation that is not empty neither starts nor ends
    with a whitespace character. *)
Theorem clean_translation_has_no_outer_whitespace
  (s : str) (c : codepoint) (rest : str) :
  _clean_translation s = c :: rest ->
  isspace c = false /\ isspace (last (c :: rest) c) = false.
Proof. unfold _clean_translation. apply strip_ends. Qed.

Lemma clean_translation_has_no_outer_whitespace_witness :
  isspace 104%N = false /\ isspace (last (lit "hi") 104%N) = false.
Proof.
  apply (clean_translation_has_no_outer_whitespace
           (lit "Okay,  hi  ") 104%N [105%N]).
  vm_compute. reflexivity.
Defined.

Lemma startswith_blank (s prefix : str) (c : codepoint) (rest : str) :
  forallb isspace s = true -> prefix = c :: rest -> isspace c = false ->
  startswith s prefix = false.
Proof.
  intros Hs -> Hc. destruct s as [|d s]; [reflexivity|]. simpl in *.
  apply andb_true_iff in Hs as [Hd _].
  destruct (N.eqb_spec c d) as [->|_]; [congruence|reflexivity].
Qed.

Lemma rstrip_blank (s : str) : forallb isspace s = true -> rstrip s = [].
Proof.
  induction s as [|c s IH]; simpl; [reflexivity|].
  intros H. apply andb_true_iff in H as [Hc Hs]. now rewrite (IH Hs), Hc.
Qed.

(** X3: a response that is empty or holds whitespace only is cleaned to
    the empty string. *)
Theorem clean_translation_of_blank (s : str) :
  forallb isspace s = true -> _clean_translation s = [].
Proof.
  intros Hs. unfold _clean_translation.
  rewrite strip_prefixes_matches_none.
  - unfold strip. now rewrite (rstrip_blank s Hs).
  - unfold matches_none. apply forallb_forall. intros p Hp.
    apply negb_true_iff.
    assert (Hhead : forallb (fun q => match q with
                                      | [] => false
                                      | c :: _ => negb (isspace c)
                                      end) remove_prefixes = true)
      by (vm_compute; reflexivity).
    pose proof (proj1 (forallb_forall _ _) Hhead p Hp) as Hq.
    destruct p as [|c rest]; [discriminate|].
    apply (startswith_blank s (c :: rest) c rest Hs eq_refl).
    now apply negb_true_iff.
Qed.

Lemma clean_translation_of_blank_witness :
  _clean_translation [32; 12288; 10]%N = [].
Proof.
  apply (clean_translation_of_blank [32; 12288; 10]%N).
  vm_compute. reflexivity.
Defined.

End CleaningShape.

(** ** Translation requests *)

Section Requests.

Import TranslationWorker TranslationRequests Vocabulary.
Import DraggableSubtitleWindow.

Lemma process_translation_single
  (model_name : str) (post : payload -> post_result)
  (text source_language : str) :
  exists s,
    _process_translation model_name post text source_language = [s]
    /\ original_of s = text.
Proof.
  unfold _process_translation.
  destruct (post _) as [r| | |message]; eauto.
  destruct (status_code r =? 200); eauto.
  destruct (json r); eauto.
Qed.

(** X4: every translation task yields exactly one signal, tagged with the
    original text unchanged; it is [translation_finished] exactly when the
    request returned with status 200 and a body that parses, and then it
    carries the source language of the task. *)
Theorem process_translation_one_result
  (model_name : str) (post : payload -> post_result)
  (text source_language : str) :
  let result :=
    _process_translation model_name post text source_language in
  (exists s, result = [s] /\ original_of s = text)
  /\ ((exists o t l, In (translation_finished o t l) result)
      <-> exists r field,
            post (mk_payload model_name
                    (build_prompt text source_language) false)
            = post_returns r
            /\ status_code r = 200 /\ json r = json_dict field)
  /\ (forall o t l,
        In (translation_finished o t l) result ->
        o = text /\ l = source_language).
Proof.
  intros result. split; [apply process_translation_single|].
  subst result. unfold _process_translation.
  destruct (post _) as [r| | |message].
  - destruct (Nat.eqb_spec (status_code r) 200) as [Hok|Hbad].
    + destruct (json r) as [field|message] eqn:Hjson.
      * split; [split|].
        -- intros _. now exists r, field.
        -- intros _. do 3 eexists. now left.
        -- intros o t l [H|[]]. inversion H. auto.
      * split; [split|].
        -- intros [o [t [l [H|[]]]]]. discriminate H.
        -- intros [r' [field [Hr [_ Hj]]]]. inversion Hr; subst r'.
           congruence.
        -- intros o t l [H|[]]. discriminate H.
    + split; [split|].
      * intros [o [t [l [H|[]]]]]. discriminate H.
      * intros [r' [field [Hr [Hc _]]]]. inversion Hr; subst r'.
        contradiction.
      * intros o t l [H|[]]. discriminate H.
  - split; [split|].
    + intros [o [t [l [H|[]]]]]. discriminate H.
    + intros [r' [field [Hr _]]]. discriminate Hr.
    + intros o t l [H|[]]. discriminate H.
  - split; [split|].
    + intros [o [t [l [H|[]]]]]. discriminate H.
    + intros [r' [field [Hr _]]]. discriminate Hr.
    + intros o t l [H|[]]. discriminate H.
  - split; [split|].
    + intros [o [t [l [H|[]]]]]. discriminate H.
    + intros [r' [field [Hr _]]]. discriminate Hr.
    + intros o t l [H|[]]. discriminate H.
Qed.

(** X5: on success the translation emitted is a contiguous part of the
    [response] field of the body, without whitespace at either end; when the
    body has no such field the translation is empty. *)
Theorem finished_translation_comes_from_response
  (model_name : str) (post : payload -> post_result)
  (text source_language : str) (r : response) (field : option str) :
  post (mk_payload model_name (build_prompt text source_language) false)
  = post_returns r ->
  status_code r = 200 ->
  json r = json_dict field ->
  exists t,
    _process_translation model_name post text source_language
    = [translation_finished text t source_language]
    /\ part_of t (match field with Some body => body | None => [] end)
    /\ strip t = t
    /\ (field = None -> t = []).
Proof.
  intros Hpost Hcode Hjson. unfold _process_translation.
  rewrite Hpost, Hcode, Hjson. simpl.
  eexists. split; [reflexivity|]. split; [|split].
  - eapply part_of_trans.
    + apply clean_translation_part_of.
    + apply strip_part_of.
  - unfold _clean_translation. apply strip_idempotent.
  - intros ->. reflexivity.
Qed.

Lemma finished_translation_comes_from_response_witness :
  exists t,
    _process_translation (lit "qwen2.5:3b")
      (fun _ => post_returns
                  (mk_response 200 (json_dict (Some (lit " Okay, hi ")))))
      (lit "salut") (lit "fr")
    = [translation_finished (lit "salut") t (lit "fr")]
    /\ part_of t (lit " Okay, hi ")
    /\ strip t = t
    /\ (Some (lit " Okay, hi ") = None -> t = []).
Proof.
  apply (finished_translation_comes_from_response (lit "qwen2.5:3b")
           (fun _ => post_returns
                       (mk_response 200 (json_dict (Some (lit " Okay, hi ")))))
           (lit "salut") (lit "fr")
           (mk_response 200 (json_dict (Some (lit " Okay, hi "))))
           (Some (lit " Okay, hi ")));
    reflexivity.
Defined.

(** X6: the worker answers its tasks in the order of the queue, one signal
    per task: the original texts of the signals are the texts of the tasks,
    whatever the endpoint does. *)
Theorem run_answers_in_queue_order
  (model_name : str) (post : nat -> payload -> post_result) (n : nat)
  (request_queue : list (str * str)) :
  map original_of (run model_name post n request_queue)
  = map fst request_queue.
Proof.
  revert n. induction request_queue as [|[text lang] rest IH]; intros n.
  - reflexivity.
  - simpl. rewrite map_app, IH.
    destruct (process_translation_single model_name (post n) text lang)
      as [s [Hs Ho]].
    rewrite Hs. simpl. now rewrite Ho.
Qed.

(** *** The window *)

Lemma on_speech_recognized_current (w : window) (text lang : str) :
  current_subtitle (on_speech_recognized w text lang)
  = mk_subtitle text pending_marker lang.
Proof.
  unfold on_speech_recognized. simpl.
  destruct (translation_worker w); reflexivity.
Qed.

Lemma on_speech_recognized_previous (w : window) (text lang : str) :
  previous_subtitle (on_speech_recognized w text lang)
  = if truthy (original (current_subtitle w))
    then current_subtitle w
    else previous_subtitle w.
Proof.
  unfold on_speech_recognized. simpl.
  destruct (translation_worker w); reflexivity.
Qed.

Lemma update_display_consistent (w : window) :
  display_consistent (update_display w).
Proof. repeat split. Qed.

Lemma on_speech_recognized_consistent (w : window) (text lang : str) :
  display_consistent (on_speech_recognized w text lang).
Proof.
  unfold on_speech_recognized. simpl.
  destruct (translation_worker w); repeat split.
Qed.

Lemma deliver_result_consistent (w : window) (s : worker_signal) :
  display_consistent w -> display_consistent (deliver_result w s).
Proof.
  intros H. destruct s as [o t l|o e]; simpl;
    unfold on_translation_finished, on_translation_failed;
    destruct (eqb (original (current_subtitle w)) o);
    try exact H; apply update_display_consistent.
Qed.

Lemma handle_consistent (w : window) (ev : window_event) :
  display_consistent w -> display_consistent (handle w ev).
Proof.
  intros H. destruct ev as [[text lang|message|v]|s]; simpl.
  - apply on_speech_recognized_consistent.
  - exact H.
  - exact H.
  - now apply deliver_result_consistent.
Qed.

(** X7: from the first recognized text on, whatever signals follow from
    either thread, the four subtitle labels show exactly the two subtitle
    slots. *)
Theorem labels_show_slots_after_first_recognition
  (w : window) (text lang : str) (evs : list window_event) :
  display_consistent
    (handle_all w (from_recognizer (text_recognized text lang) :: evs)).
Proof.
  unfold handle_all. simpl.
  pose proof (on_speech_recognized_consistent w text lang) as H.
  revert H. generalize (on_speech_recognized w text lang).
  induction evs as [|ev evs IH]; intros w1 H; simpl; [exact H|].
  apply IH. now apply handle_consistent.
Qed.

Lemma deliver_result_keeps (w : window) (s : worker_signal) :
  previous_subtitle (deliver_result w s) = previous_subtitle w
  /\ original (current_subtitle (deliver_result w s))
     = original (current_subtitle w)
  /\ language (current_subtitle (deliver_result w s))
     = language (current_subtitle w)
  /\ translation_worker (deliver_result w s) = translation_worker w.
Proof.
  destruct s as [o t l|o e]; simpl;
    unfold on_translation_finished, on_translation_failed;
    destruct (eqb (original (current_subtitle w)) o); simpl; auto.
Qed.

(** X8: translation results never write the previous slot.  When a second
    text is recognized before the translation of the first arrives, the
    first line keeps the pending marker, whatever results arrive later. *)
Theorem late_translation_never_reaches_previous_line
  (w : window) (text1 lang1 text2 lang2 : str) (results : list worker_signal) :
  text1 <> [] ->
  let w2 :=
    on_speech_recognized (on_speech_recognized w text1 lang1) text2 lang2 in
  previous_subtitle (fold_left deliver_result results w2)
  = mk_subtitle text1 pending_marker lang1
  /\ original (current_subtitle (fold_left deliver_result results w2)) = text2.
Proof.
  intros Hne w2.
  assert (Hkeep : forall rs w0,
            previous_subtitle (fold_left deliver_result rs w0)
            = previous_subtitle w0
            /\ original (current_subtitle (fold_left deliver_result rs w0))
               = original (current_subtitle w0)).
  { induction rs as [|s rs IH]; intros w0; simpl; [auto|].
    destruct (IH (deliver_result w0 s)) as [H1 H2].
    destruct (deliver_result_keeps w0 s) as [K1 [K2 _]].
    rewrite H1, H2. auto. }
  destruct (Hkeep results w2) as [H1 H2]. rewrite H1, H2.
  subst w2.
  rewrite on_speech_recognized_previous, !on_speech_recognized_current.
  simpl. apply truthy_nonempty in Hne. now rewrite Hne.
Qed.

Lemma late_translation_never_reaches_previous_line_witness :
  previous_subtitle
    (fold_left deliver_result
       [translation_finished (lit "first") (lit "one") (lit "en")]
       (on_speech_recognized
          (on_speech_recognized init (lit "first") (lit "en"))
          (lit "second") (lit "en")))
  = mk_subtitle (lit "first") pending_marker (lit "en").
Proof.
  apply (late_translation_never_reaches_previous_line init (lit "first")
           (lit "en") (lit "second") (lit "en")
           [translation_finished (lit "first") (lit "one") (lit "en")]).
  discriminate.
Defined.

(** X9: results are matched by text alone.  When the same text is
    recognized twice, possibly with different languages, the translation
    requested for the first is shown for the second. *)
Theorem same_text_takes_earlier_translation
  (w : window) (text lang1 lang2 translated : str) :
  let w2 :=
    on_speech_recognized (on_speech_recognized w text lang1) text lang2 in
  current_subtitle (on_translation_finished w2 text translated lang1)
  = mk_subtitle text translated lang2
  /\ current_translation_label
       (on_translation_finished w2 text translated lang1) = translated.
Proof.
  intros w2.
  assert (Hcur : current_subtitle w2 = mk_subtitle text pending_marker lang2)
    by apply on_speech_recognized_current.
  unfold on_translation_finished. rewrite Hcur. simpl.
  rewrite (proj2 (eqb_eq text text) eq_refl). simpl. rewrite Hcur. auto.
Qed.

Lemma on_speech_recognized_queue (w : window) (tw : worker) (text lang : str) :
  translation_worker w = Some tw ->
  translation_worker (on_speech_recognized w text lang)
  = Some (mk_worker
            (request_queue tw
               ++ if nonblank text then [(text, lang)] else [])).
Proof.
  intros Htw. unfold on_speech_recognized. simpl. rewrite Htw. simpl.
  unfold nonblank. destruct (truthy (strip text)) eqn:Hb.
  - rewrite add_translation_task_nonblank; [reflexivity|].
    now apply truthy_nonempty.
  - rewrite add_translation_task_blank, app_nil_r; [now destruct tw|].
    destruct (strip text); [reflexivity|discriminate].
Qed.

(** X10: recognized texts are queued for translation in the order of
    recognition, after the tasks already waiting; texts of whitespace only
    are skipped and nothing is ever taken out of the queue. *)
Theorem recognitions_queue_in_order
  (w : window) (tw : worker) (texts : list (str * str)) :
  translation_worker w = Some tw ->
  pending_tasks
    (fold_left (fun w0 tl => on_speech_recognized w0 (fst tl) (snd tl))
       texts w)
  = request_queue tw ++ filter (fun tl => nonblank (fst tl)) texts.
Proof.
  revert w tw. induction texts as [|[text lang] texts IH]; intros w tw Htw.
  - simpl. unfold pending_tasks. rewrite Htw. now rewrite app_nil_r.
  - simpl fold_left.
    rewrite (IH _ _ (on_speech_recognized_queue w tw text lang Htw)).
    simpl. destruct (nonblank text); simpl.
    + now rewrite <- app_assoc.
    + now rewrite app_nil_r.
Qed.

Lemma recognitions_queue_in_order_witness :
  pending_tasks
    (fold_left (fun w0 tl => on_speech_recognized w0 (fst tl) (snd tl))
       [(lit "one", lit "en"); (lit " ", lit "en"); (lit "two", lit "zh")]
       init)
  = [(lit "one", lit "en"); (lit "two", lit "zh")].
Proof.
  apply (recognitions_queue_in_order init (mk_worker [])
           [(lit "one", lit "en"); (lit " ", lit "en"); (lit "two", lit "zh")]).
  reflexivity.
Defined.

(** What the window shows for a result: the translation, or the failure
    marker. *)
Lemma deliver_matching_result (w : window) (s : worker_signal) :
  original_of s = original (current_subtitle w) ->
  current_subtitle (deliver_result w s)
  = mk_subtitle (original (current_subtitle w))
      (match s with
       | translation_finished _ t _ => t
       | translation_failed _ _ => failure_marker
       end)
      (language (current_subtitle w))
  /\ current_translation_label (deliver_result w s)
     = match s with
       | translation_finished _ t _ => t
       | translation_failed _ _ => failure_marker
       end.
Proof.
  intros Ho. destruct s as [o t l|o e]; simpl in *;
    unfold on_translation_finished, on_translation_failed;
    rewrite (proj2 (eqb_eq _ _) (eq_sym Ho)); simpl; auto.
Qed.

(** X11: one utterance end to end.  A text with a visible character is
    recognized while no task is waiting; the worker runs the queue; its
    signals are delivered.  Then the current slot holds the text, its
    language and either the translation the worker emitted or the failure
    marker, the label shows the same, and the previous slot is as the
    recognition left it. *)
Theorem recognized_then_translated
  (w : window) (text lang model_name : str)
  (post : nat -> payload -> post_result) :
  translation_worker w = Some (mk_worker []) ->
  nonblank text = true ->
  let w1 := on_speech_recognized w text lang in
  let results := run model_name post 0 (pending_tasks w1) in
  let w2 := fold_left deliver_result results w1 in
  exists s,
    results = [s]
    /\ original_of s = text
    /\ current_subtitle w2
       = mk_subtitle text
           (match s with
            | translation_finished _ t _ => t
            | translation_failed _ _ => failure_marker
            end)
           lang
    /\ current_translation_label w2 = translation (current_subtitle w2)
    /\ previous_subtitle w2 = previous_subtitle w1.
Proof.
  intros Htw Hnb w1 results w2.
  assert (Hq : pending_tasks w1 = [(text, lang)]).
  { subst w1. unfold pending_tasks.
    rewrite (on_speech_recognized_queue w _ text lang Htw), Hnb.
    reflexivity. }
  assert (Hcur : current_subtitle w1 = mk_subtitle text pending_marker lang)
    by apply on_speech_recognized_current.
  subst results w2. rewrite Hq. simpl. rewrite app_nil_r.
  destruct (process_translation_single model_name (post 0) text lang)
    as [s [Hs Ho]].
  rewrite Hs. simpl. exists s. split; [reflexivity|]. split; [exact Ho|].
  destruct (deliver_matching_result w1 s) as [H1 H2];
    [rewrite Hcur; exact Ho|].
  rewrite H1, H2, Hcur. simpl. split; [reflexivity|]. split; [reflexivity|].
  apply deliver_result_keeps.
Qed.

Lemma recognized_then_translated_witness :
  current_subtitle
    (fold_left deliver_result
       (run (lit "qwen2.5:3b")
          (fun _ _ =>
             post_returns
               (mk_response 200
                  (json_dict (Some (lit "Translation: bonjour")))))
          0
          (pending_tasks (on_speech_recognized init (lit "hello") (lit "en"))))
       (on_speech_recognized init (lit "hello") (lit "en")))
  = mk_subtitle (lit "hello") (lit "bonjour") (lit "en").
Proof.
  destruct (recognized_then_translated init (lit "hello") (lit "en")
              (lit "qwen2.5:3b")
              (fun _ _ =>
                 post_returns
                   (mk_response 200
                      (json_dict (Some (lit "Translation: bonjour")))))
              eq_refl eq_refl) as [s [Hs [_ [Hcur _]]]].
  rewrite Hcur. inversion Hs. reflexivity.
Defined.

End Requests.

(** ** The list of models *)

Section Models.

Import WhisperSpeechRecognizer DraggableSubtitleWindow ModelMenu Vocabulary.

Lemma list_in_In (x : str) (l : list str) : list_in x l = true <-> In x l.
Proof.
  unfold list_in. rewrite existsb_exists. split.
  - intros [y [Hy He]]. apply eqb_eq in He. now subst.
  - intros H. exists x. split; [exact H|now apply eqb_eq].
Qed.

Lemma list_remove_present (x : str) (l : list str) :
  In x l -> NoDup l ->
  exists r,
    list_remove x l = returns r
    /\ length l = S (length r)
    /\ NoDup r
    /\ ~ In x r
    /\ (forall y, In y r <-> In y l /\ y <> x).
Proof.
  induction l as [|y l IH]; intros Hin Hnd; [destruct Hin|].
  inversion Hnd as [|y' l' Hy Hl]; subst. simpl.
  destruct (eqb y x) eqn:He.
  - apply eqb_eq in He. subst y. exists l.
    split; [reflexivity|]. split; [reflexivity|].
    split; [exact Hl|]. split; [exact Hy|].
    intros z. split.
    + intros Hz. split; [now right|]. intros ->. contradiction.
    + intros [[->|Hz] Hne]; [congruence|exact Hz].
  - apply eqb_neq in He. destruct Hin as [->|Hin]; [congruence|].
    destruct (IH Hin Hl) as [r [Hr [Hlen [Hndr [Hx Hiff]]]]].
    rewrite Hr. exists (y :: r).
    split; [reflexivity|]. split; [simpl; now rewrite Hlen|].
    split.
    { constructor; [|exact Hndr]. intros Hyr. apply Hiff in Hyr. tauto. }
    split.
    { intros [->|Hxr]; [congruence|contradiction]. }
    intros z. split.
    + intros [->|Hz]; [split; [now left|exact He]|].
      apply Hiff in Hz. split; [now right|tauto].
    + intros [[->|Hz] Hne]; [now left|right; now apply Hiff].
Qed.

Lemma models_ok_init : models_ok init_models.
Proof.
  split; [now left|].
  repeat constructor; simpl; intros H; repeat destruct H as [H|H];
    try discriminate H; exact H.
Qed.

(** X12: the bookkeeping of the model list keeps it sound.  If the current
    model is listed and no model is listed twice, the same holds after
    [add_custom_model] with any input, after [remove_current_model] with any
    answer, which then never fails and never empties the list, and after
    [set_model] with a listed model. *)
Theorem models_ok_preserved (m : models) :
  models_ok m ->
  (forall name ok, models_ok (add_custom_model m name ok))
  /\ (forall w yes,
        exists w' m',
          remove_current_model w m yes = returns (w', m')
          /\ models_ok m' /\ custom_models m' <> [])
  /\ (forall w name,
        In name (custom_models m) -> models_ok (snd (set_model w m name))).
Proof.
  intros [Hin Hnd]. split; [|split].
  - intros name ok. unfold add_custom_model.
    destruct (ok && truthy (strip name)); [|now split].
    destruct (list_in name (custom_models m)) eqn:Hl; simpl; [now split|].
    split; simpl.
    + apply in_or_app. now left.
    + apply NoDup_app; [exact Hnd|repeat constructor; intros []|].
      intros y Hy [->|[]]. apply list_in_In in Hy. congruence.
  - intros w yes. unfold remove_current_model.
    assert (Hne : custom_models m <> []) by (intros E; now rewrite E in Hin).
    destruct (length (custom_models m) <=? 1) eqn:Hlen.
    { exists w, m. repeat split; auto. }
    destruct yes; [|exists w, m; repeat split; auto].
    apply Nat.leb_gt in Hlen.
    destruct (list_remove_present _ _ Hin Hnd)
      as [r [Hr [Hl [Hndr _]]]].
    rewrite Hr. destruct r as [|first rest]; [simpl in Hl; lia|].
    eexists _, _. split; [reflexivity|]. simpl.
    repeat split; [now left|exact Hndr|discriminate].
  - intros w name Hname. split; [exact Hname|exact Hnd].
Qed.

Lemma models_ok_preserved_witness :
  models_ok (add_custom_model init_models (lit "llama3:8b") true)
  /\ exists w' m',
       remove_current_model init init_models true = returns (w', m')
       /\ models_ok m' /\ custom_models m' <> [].
Proof.
  destruct (models_ok_preserved init_models models_ok_init) as [Ha [Hr _]].
  split; [apply Ha|apply Hr].
Defined.

(** X13: a confirmed removal with more than one model listed takes the
    current model off the list and nothing else, makes the first remaining
    model current, and restarts the worker: the tasks that were waiting are
    gone, and both subtitle slots are as before. *)
Theorem remove_current_model_effect (w : window) (m : models) :
  models_ok m -> 1 < length (custom_models m) ->
  exists w' m',
    remove_current_model w m true = returns (w', m')
    /\ (forall name,
          In name (custom_models m')
          <-> In name (custom_models m) /\ name <> model_name m)
    /\ length (custom_models m) = S (length (custom_models m'))
    /\ hd_error (custom_models m') = Some (model_name m')
    /\ pending_tasks w' = []
    /\ previous_subtitle w' = previous_subtitle w
    /\ current_subtitle w' = current_subtitle w.
Proof.
  intros [Hin Hnd] Hlen. unfold remove_current_model.
  replace (length (custom_models m) <=? 1) with false
    by (symmetry; apply Nat.leb_gt; exact Hlen).
  destruct (list_remove_present _ _ Hin Hnd)
    as [r [Hr [Hl [_ [_ Hiff]]]]].
  rewrite Hr. destruct r as [|first rest]; [simpl in Hl; lia|].
  eexists _, _. split; [reflexivity|]. simpl.
  split; [exact Hiff|]. split; [exact Hl|]. auto.
Qed.

Lemma remove_current_model_effect_witness :
  exists w' m',
    remove_current_model
      (on_speech_recognized init (lit "hello") (lit "en")) init_models true
    = returns (w', m')
    /\ custom_models m' = [lit "deepseek-r1:7b"]
    /\ model_name m' = lit "deepseek-r1:7b"
    /\ pending_tasks w' = [].
Proof.
  destruct (remove_current_model_effect
              (on_speech_recognized init (lit "hello") (lit "en"))
              init_models models_ok_init ltac:(simpl; lia))
    as [w' [m' [Hrun [_ [_ [_ [Hq _]]]]]]].
  exists w', m'. split; [exact Hrun|].
  vm_compute in Hrun. inversion Hrun. subst. repeat split.
Defined.

End Models.

(** ** The segmentation loop, further *)

Section Loop.

Import WhisperSpeechRecognizer Vocabulary.

Local Arguments should_process : simpl never.
Local Arguments reset_after_speech : simpl never.

Lemma frombuffer_none (data : bytes) :
  (frombuffer data = None <-> Nat.odd (length data) = true)
  /\ forall b,
       frombuffer (b :: data) = None <-> Nat.odd (S (length data)) = true.
Proof.
  induction data as [|a data [IH1 IH2]].
  - split; [split; discriminate|]. intros b. split; reflexivity.
  - split; [apply IH2|]. intros b.
    change (frombuffer (b :: a :: data))
      with (match frombuffer data with
            | Some samples => Some (int16 b a :: samples)
            | None => None
            end).
    change (Nat.odd (S (length (a :: data)))) with (Nat.odd (length data)).
    rewrite <- IH1. destruct (frombuffer data); split; congruence.
Qed.

Lemma computed_volume_none (data : bytes) :
  computed_volume data = None
  <-> data = [] \/ Nat.odd (length data) = true.
Proof.
  unfold computed_volume. destruct data as [|b data].
  - simpl. split; auto.
  - change (nonempty (b :: data)) with true. cbv iota.
    rewrite <- (proj1 (frombuffer_none (b :: data))).
    destruct (frombuffer (b :: data)); split; try congruence.
    + intros [H|H]; discriminate H.
    + auto.
Qed.

Lemma on_frame_first_effect (st : recognizer) (data : bytes) (v : Q) :
  computed_volume data = Some v ->
  exists rest,
    snd (on_frame st data) = emit (volume_updated (int_of v)) :: rest.
Proof.
  intros Hv. rewrite (on_frame_volume st data v Hv).
  destruct (detect st data v) as [st1 started].
  destruct (is_speaking st1 && _ && _); simpl; eauto.
Qed.

(** X14: a block from the queue is passed over without any effect, the
    state as it was, exactly when it is empty or of odd size; every other
    block is measured and its volume is the first signal emitted. *)
Theorem malformed_block_is_passed_over (st : recognizer) (data : bytes) :
  (on_frame st data = (st, [])
   <-> data = [] \/ Nat.odd (length data) = true)
  /\ (data <> [] -> Nat.odd (length data) = false ->
      exists v rest,
        computed_volume data = Some v
        /\ snd (on_frame st data)
           = emit (volume_updated (int_of v)) :: rest).
Proof.
  split.
  - rewrite <- computed_volume_none. split.
    + intros H. destruct (computed_volume data) as [v|] eqn:Hv;
        [|reflexivity].
      destruct (on_frame_first_effect st data v Hv) as [rest Hrest].
      rewrite H in Hrest. discriminate Hrest.
    + apply on_frame_skipped.
  - intros Hne Heven. destruct (computed_volume data) as [v|] eqn:Hv.
    + destruct (on_frame_first_effect st data v Hv) as [rest Hrest].
      now exists v, rest.
    + apply computed_volume_none in Hv as [H|H]; congruence.
Qed.

Lemma malformed_block_is_passed_over_witness :
  exists v rest,
    computed_volume [xc8; x00] = Some v
    /\ snd (on_frame init [xc8; x00])
       = emit (volume_updated (int_of v)) :: rest.
Proof.
  apply (proj2 (malformed_block_is_passed_over init [xc8; x00]));
    [discriminate|reflexivity].
Defined.

(** *** Bounds on the buffer and on the utterances *)


Lemma should_process_min (buffered silent_run : nat) (v : Q) :
  should_process buffered silent_run v = true -> 8 <= buffered.
Proof.
  intros H. apply should_process_true in H as [[_ H]|[H|H]]; [exact H|lia|].
  rewrite short_utterance_rule_counts, !andb_true_iff, !Nat.leb_le in H.
  lia.
Qed.




(** The check that follows the voice-activity update, for a state that is
    speaking after it. *)
Lemma close_or_continue (st1 : recognizer) (pre : list effect) (v : Q)
  (P : recognizer * list effect -> Prop) :
  is_speaking st1 = true -> audio_buffer st1 <> [] ->
  (should_process (length (audio_buffer st1)) (silence_frames st1) v = true ->
   P (reset_after_speech st1,
      pre ++ [call_process_speech (concat (audio_buffer st1))])) ->
  (should_process (length (audio_buffer st1)) (silence_frames st1) v = false ->
   P (st1, pre)) ->
  P (if is_speaking st1
        && should_process (length (audio_buffer st1)) (silence_frames st1) v
        && nonempty (audio_buffer st1)
     then (reset_after_speech st1,
           pre ++ [call_process_speech (concat (audio_buffer st1))])
     else (st1, pre)).
Proof.
  intros Hsp Hne Hclose Hgo. rewrite Hsp.
  replace (nonempty (audio_buffer st1)) with true
    by (destruct (audio_buffer st1) eqn:E; [congruence|reflexivity]).
  rewrite andb_true_r. simpl.
  destruct (should_process _ _ v); auto.
Qed.



(** *** What an utterance holds *)

Lemma signals_before_last_call (e1 e2 e : list effect) (u : bytes) :
  utterances e1 = [] ->
  e1 ++ e2 = e ++ [call_process_speech u] ->
  utterances e = [] ->
  exists e', e2 = e' ++ [call_process_speech u] /\ utterances e' = [].
Proof.
  revert e. induction e1 as [|x e1 IH]; intros e H1 Heq He.
  - now exists e.
  - destruct x as [s|c]; [|discriminate H1]. simpl in H1.
    destruct e as [|y e]; [discriminate Heq|].
    simpl in Heq. inversion Heq; subst y. simpl in He.
    now apply (IH e).
Qed.

Lemma speaking_frame (st : recognizer) (data : bytes) (v : Q) :
  is_speaking st = true -> computed_volume data = Some v ->
  (exists silent_run,
     on_frame st data
     = (mk_recognizer (audio_buffer st ++ [data]) silent_run true,
        [emit (volume_updated (int_of v))]))
  \/ (exists st1,
        on_frame st data
        = (st1, [emit (volume_updated (int_of v));
                 call_process_speech (concat (audio_buffer st ++ [data]))])).
Proof.
  intros Hsp Hv. rewrite (on_frame_volume st data v Hv). unfold detect.
  rewrite Hsp.
  destruct (negb (Qle_bool v silence_threshold)); cbn [negb];
    apply close_or_continue; cbn [is_speaking audio_buffer];
    try reflexivity; try (now destruct (audio_buffer st)); intros _;
    eauto.
Qed.

Lemma well_formed_effects (fs : list bytes) (st : recognizer) :
  forallb well_formed fs = true ->
  snd (_process_audio_stream st (map frame fs)) = [] -> fs = [].
Proof.
  destruct fs as [|f fs]; [reflexivity|]. simpl. intros Hall.
  apply andb_true_iff in Hall as [Hf _]. unfold well_formed in Hf.
  destruct (computed_volume f) as [v|] eqn:Hv; [|discriminate].
  destruct (on_frame_first_effect st f v Hv) as [rest Hrest].
  destruct (on_frame st f) as [st1 e1]. simpl in Hrest. subst e1.
  destruct (_process_audio_stream st1 (map frame fs)). discriminate.
Qed.

Lemma utterance_since (fs : list bytes) (st : recognizer)
  (e : list effect) (u : bytes) :
  is_speaking st = true ->
  forallb well_formed fs = true ->
  snd (_process_audio_stream st (map frame fs))
  = e ++ [call_process_speech u] ->
  utterances e = [] ->
  u = concat (audio_buffer st ++ fs).
Proof.
  revert st e. induction fs as [|f fs IH]; intros st e Hsp Hall Heq He.
  - simpl in Heq. now destruct e.
  - simpl in Hall. apply andb_true_iff in Hall as [Hf Hall].
    unfold well_formed in Hf.
    destruct (computed_volume f) as [v|] eqn:Hv; [|discriminate].
    simpl in Heq.
    destruct (speaking_frame st f v Hsp Hv) as [[c Hgo]|[st1 Hclose]].
    + rewrite Hgo in Heq.
      pose proof (IH (mk_recognizer (audio_buffer st ++ [f]) c true)) as IH'.
      destruct (_process_audio_stream _ (map frame fs)) as [st2 e2].
      simpl in Heq, IH'.
      destruct (signals_before_last_call [emit (volume_updated (int_of v))]
                  e2 e u eq_refl Heq He) as [e' [He2 He']].
      rewrite (IH' e' eq_refl Hall He2 He'). now rewrite <- app_assoc.
    + rewrite Hclose in Heq.
      pose proof (well_formed_effects fs st1 Hall) as Hnone.
      destruct (_process_audio_stream st1 (map frame fs)) as [st2 e2].
      simpl in Heq, Hnone.
      destruct e2 as [|x e2] using rev_ind.
      * rewrite (Hnone eq_refl).
        change [emit (volume_updated (int_of v));
                call_process_speech (concat (audio_buffer st ++ [f]))]
          with ([emit (volume_updated (int_of v))]
                  ++ [call_process_speech (concat (audio_buffer st ++ [f]))])
          in Heq.
        apply app_inj_tail in Heq as [_ Heq].
        now inversion Heq.
      * exfalso. clear IHe2.
        change (emit (volume_updated (int_of v))
                  :: call_process_speech (concat (audio_buffer st ++ [f]))
                  :: e2 ++ [x])
          with ((emit (volume_updated (int_of v))
                   :: call_process_speech (concat (audio_buffer st ++ [f]))
                   :: e2) ++ [x]) in Heq.
        apply app_inj_tail in Heq as [Heq _]. subst e. discriminate He.
Qed.

(** X16: the first utterance after the start of speech holds every block
    received since then, in order.  If the loop is idle, the first block is
    above the threshold, all blocks are well formed, and the run ends with
    the first call of [_process_speech], then the audio handed over is the
    concatenation of all the blocks of the run. *)
Theorem utterance_holds_all_frames
  (st : recognizer) (f : bytes) (fs : list bytes)
  (e : list effect) (u : bytes) :
  is_speaking st = false ->
  above_threshold f = true ->
  forallb well_formed fs = true ->
  snd (_process_audio_stream st (map frame (f :: fs)))
  = e ++ [call_process_speech u] ->
  utterances e = [] ->
  u = concat (f :: fs).
Proof.
  intros Hidle Hf Hall Heq He. simpl in Heq.
  destruct (speech_start st f Hidle Hf) as [Hst Hnone].
  destruct (on_frame st f) as [st1 e1]. simpl in Hst, Hnone. subst st1.
  pose proof (utterance_since fs (mk_recognizer [f] 0 true)) as Hrun.
  destruct (_process_audio_stream _ (map frame fs)) as [st2 e2].
  simpl in Heq, Hrun.
  destruct (signals_before_last_call e1 e2 e u Hnone Heq He)
    as [e' [He2 He']].
  exact (Hrun e' u eq_refl Hall He2 He').
Qed.

Lemma utterance_holds_all_frames_witness :
  exists e u,
    snd (_process_audio_stream init
           (map frame ([xc8; x00] :: repeat [xc8; x00] 7
                         ++ repeat [x50; x00] 19)))
    = e ++ [call_process_speech u]
    /\ u = concat ([xc8; x00] :: repeat [xc8; x00] 7
                     ++ repeat [x50; x00] 19).
Proof.
  pose (input := repeat [xc8; x00] 7 ++ repeat [x50; x00] 19).
  pose (out := snd (_process_audio_stream init
                      (map frame ([xc8; x00] :: input)))).
  exists (removelast out), (concat ([xc8; x00] :: input)).
  split; [vm_compute; reflexivity|].
  symmetry.
  apply (utterance_holds_all_frames init [xc8; x00] input (removelast out)
           (concat ([xc8; x00] :: input)));
    vm_compute; reflexivity.
Defined.

(** *** What is kept at a closure *)

(** X17: when a block closes an utterance (by the silence, the
    maximum-length or the short-utterance rule), the utterance ends with that
    block, the loop is idle with the silence counter at 0, and the buffer
    holds exactly the last 4 frames of the utterance, 0.256 s of audio. *)
Theorem frame_closure_keeps_last_frames (st : recognizer) (data : bytes) :
  emits_utterance (snd (on_frame st data)) = true ->
  exists frames,
    utterances (snd (on_frame st data)) = [concat (frames ++ [data])]
    /\ fst (on_frame st data)
       = mk_recognizer
           (skipn (length (frames ++ [data]) - 4) (frames ++ [data])) 0 false
    /\ length (audio_buffer (fst (on_frame st data))) = 4
    /\ (duration (length (audio_buffer (fst (on_frame st data)))) <= 0.3)%Q.
Proof.
  destruct (computed_volume data) as [v|] eqn:Hv;
    [|rewrite (on_frame_skipped st data Hv); discriminate].
  rewrite (on_frame_volume st data v Hv).
  assert (Hclose : forall frames silent_run pre,
            utterances pre = [] ->
            should_process (length (frames ++ [data])) silent_run v = true ->
            let r := (reset_after_speech
                        (mk_recognizer (frames ++ [data]) silent_run true),
                      pre ++ [call_process_speech (concat (frames ++ [data]))])
            in
            exists frames0,
              utterances (snd r) = [concat (frames0 ++ [data])]
              /\ fst r
                 = mk_recognizer
                     (skipn (length (frames0 ++ [data]) - 4)
                        (frames0 ++ [data])) 0 false
              /\ length (audio_buffer (fst r)) = 4
              /\ (duration (length (audio_buffer (fst r))) <= 0.3)%Q).
  { intros frames c pre Hpre Hp r. subst r. cbn [fst snd].
    apply should_process_min in Hp.
    assert (Hreset : reset_after_speech
                       (mk_recognizer (frames ++ [data]) c true)
                     = mk_recognizer
                         (skipn (length (frames ++ [data]) - 4)
                            (frames ++ [data])) 0 false).
    { unfold reset_after_speech. cbn [audio_buffer].
      change keep_frames with 4.
      replace (4 <? length (frames ++ [data])) with true
        by (symmetry; apply Nat.ltb_lt; lia).
      reflexivity. }
    exists frames. rewrite Hreset. cbn [audio_buffer].
    rewrite utterances_app, Hpre. simpl utterances.
    assert (Hlen : length (skipn (length (frames ++ [data]) - 4)
                             (frames ++ [data])) = 4)
      by (rewrite length_skipn; lia).
    rewrite Hlen. repeat split.
    apply carryover_duration. change keep_frames with 4. lia. }
  unfold detect.
  destruct (negb (Qle_bool v silence_threshold));
    destruct (is_speaking st) eqn:Hsp; cbn [negb].
  - apply close_or_continue; cbn [is_speaking audio_buffer silence_frames];
      [reflexivity|now destruct (audio_buffer st)| |]; intros Hp.
    + intros _. now apply Hclose.
    + discriminate.
  - apply close_or_continue; cbn [is_speaking audio_buffer silence_frames];
      [reflexivity|discriminate| |]; intros Hp.
    + intros _. now apply (Hclose []).
    + discriminate.
  - apply close_or_continue; cbn [is_speaking audio_buffer silence_frames];
      [reflexivity|now destruct (audio_buffer st)| |]; intros Hp.
    + intros _. now apply Hclose.
    + discriminate.
  - simpl. discriminate.
Qed.

Lemma frame_closure_keeps_last_frames_witness :
  let st :=
    fst (_process_audio_stream init
           (map frame (repeat [xc8; x00] 8 ++ repeat [x50; x00] 18))) in
  exists frames,
    utterances (snd (on_frame st [x50; x00]))
    = [concat (frames ++ [[x50; x00]])]
    /\ fst (on_frame st [x50; x00])
       = mk_recognizer
           (skipn (length (frames ++ [[x50; x00]]) - 4)
              (frames ++ [[x50; x00]])) 0 false
    /\ length (audio_buffer (fst (on_frame st [x50; x00]))) = 4
    /\ (duration (length (audio_buffer (fst (on_frame st [x50; x00]))))
        <= 0.3)%Q.
Proof.
  intros st. apply (frame_closure_keeps_last_frames st [x50; x00]).
  vm_compute. reflexivity.
Defined.

(** *** Volume and sample magnitudes *)

Lemma frombuffer_length (data : bytes) (samples : list Z) :
  frombuffer data = Some samples -> length data = 2 * length samples.
Proof.
  revert samples.
  assert (H : forall n data, length data <= n -> forall samples,
                frombuffer data = Some samples ->
                length data = 2 * length samples).
  { induction n as [|n IH]; intros [|lo [|hi rest]] Hlen samples Hs;
      simpl in *; try lia; try discriminate;
      try (inversion Hs; reflexivity).
    destruct (frombuffer rest) as [r|] eqn:Hr; [|discriminate].
    inversion Hs; subst. simpl. rewrite (IH rest ltac:(lia) r Hr). lia. }
  intros samples. apply (H (length data)). lia.
Qed.

Lemma sum_at_most (l : list Z) :
  Forall (fun x => (np_abs x <= 100)%Z) l ->
  (fold_right Z.add 0 (map np_abs l) <= 100 * Z.of_nat (length l))%Z.
Proof.
  induction 1 as [|x l Hx Hl IH]; simpl length; simpl fold_right; lia.
Qed.

Lemma sum_above (l : list Z) :
  l <> [] -> Forall (fun x => (100 < np_abs x)%Z) l ->
  (100 * Z.of_nat (length l) < fold_right Z.add 0 (map np_abs l))%Z.
Proof.
  intros Hne H. induction H as [|x l Hx Hl IH]; [congruence|].
  destruct l as [|y l].
  - simpl. lia.
  - specialize (IH ltac:(discriminate)).
    simpl length in *. simpl fold_right in *. lia.
Qed.

(** X18: speech is decided on the mean magnitude of the samples.  A block
    in which no sample has a magnitude above 100 is never taken as speech,
    and a non-empty block in which every sample has one is always taken as
    speech; the magnitude is that of [np.abs] on 16-bit samples, which is
    -32768 for the sample -32768. *)
Theorem speech_needs_loud_samples (data : bytes) (samples : list Z) :
  frombuffer data = Some samples ->
  (Forall (fun x => (np_abs x <= 100)%Z) samples ->
   above_threshold data = false)
  /\ (data <> [] -> Forall (fun x => (100 < np_abs x)%Z) samples ->
      above_threshold data = true).
Proof.
  intros Hs. pose proof (frombuffer_length data samples Hs) as Hlen.
  unfold above_threshold, computed_volume. rewrite Hs.
  destruct data as [|b data]; [split; [reflexivity|congruence]|].
  change (nonempty (b :: data)) with true. cbv iota.
  assert (Hn : 0 < length samples) by (simpl in Hlen; lia).
  unfold volume_of. replace (0 <? length samples) with true
    by (symmetry; now apply Nat.ltb_lt).
  unfold np_mean. rewrite length_map.
  assert (Hpos : (0 < inject_Z (Z.of_nat (length samples)))%Q).
  { unfold Qlt. simpl. lia. }
  change silence_threshold with (inject_Z 100).
  split.
  - intros Hall. apply negb_false_iff, Qle_bool_iff.
    apply Qle_shift_div_r; [exact Hpos|].
    rewrite <- inject_Z_mult, <- Zle_Qle. now apply sum_at_most.
  - intros _ Hall. apply negb_true_iff.
    destruct (Qle_bool _ _) eqn:Hle; [|reflexivity].
    apply Qle_bool_iff in Hle. exfalso.
    apply (Qlt_not_le _ _ (Qlt_shift_div_l _ _ _ Hpos
             ltac:(rewrite <- inject_Z_mult, <- Zlt_Qlt;
                   apply sum_above; [destruct samples; [inversion Hn|
                   discriminate]|exact Hall]))).
    exact Hle.
Qed.

Lemma speech_needs_loud_samples_witness :
  above_threshold [x64; x00; x9c; xff; x00; x80] = false
  /\ above_threshold [x65; x00; x9b; xff] = true.
Proof.
  split.
  - apply (proj1 (speech_needs_loud_samples [x64; x00; x9c; xff; x00; x80]
                    [100; -100; -32768]%Z eq_refl)).
    repeat constructor; vm_compute; discriminate.
  - apply (proj2 (speech_needs_loud_samples [x65; x00; x9b; xff]
                    [101; -101]%Z eq_refl)); [discriminate|].
    repeat constructor.
Defined.

End Loop.

(** ** Transcription, further *)

Section TranscriptionMore.

Import WhisperSpeechRecognizer Vocabulary.

Lemma try_unlink_In (env : environment) (temp_path q : path)
  (files : list path) :
  (In q (try_unlink env temp_path files) -> In q files)
  /\ (In q files -> q <> temp_path -> In q (try_unlink env temp_path files)).
Proof.
  unfold try_unlink. destruct (unlink env); [|tauto].
  rewrite filter_In. split; [tauto|].
  intros Hin Hne. split; [exact Hin|]. now apply negb_true_iff, eqb_neq.
Qed.

(** X19: a call of [_process_speech] touches no file but its own temporary
    file: every file on disk afterwards was there before or is the temporary
    file, and every other file that was there before still is. *)
Theorem process_speech_touches_only_temp_file
  (env : environment) (files : list path) (audio_data : bytes) (q : path) :
  (In q (fst (_process_speech env files audio_data)) ->
   In q files \/ NamedTemporaryFile env = returns q)
  /\ (In q files -> NamedTemporaryFile env <> returns q ->
      In q (fst (_process_speech env files audio_data))).
Proof.
  unfold _process_speech.
  destruct (NamedTemporaryFile env) as [p|]; [|simpl; tauto].
  assert (Hfresh : In q (p :: files) -> In q files \/ returns p = returns q)
    by (intros [->|H]; auto).
  assert (Hkeep : In q files -> returns p <> returns q -> q <> p)
    by (intros _ Hne ->; now apply Hne).
  destruct (wave_write env); [|simpl; split; [exact Hfresh|now right]].
  destruct (transcribe env) as [result|];
    [|simpl; split; [exact Hfresh|now right]].
  destruct (try_unlink_In env p q (p :: files)) as [H1 H2].
  destruct (truthy _ && _); simpl; split; auto;
    intros Hin Hne; apply H2; [now right|auto|now right|auto].
Qed.

Lemma process_speech_touches_only_temp_file_witness :
  In (lit "/tmp/old.wav")
    (fst (_process_speech
            (mk_environment (returns (lit "/tmp/new.wav")) (returns tt)
               (returns (mk_transcription (lit "hello") None)) (returns tt))
            [lit "/tmp/old.wav"] [])).
Proof.
  apply (proj2 (process_speech_touches_only_temp_file
                  (mk_environment (returns (lit "/tmp/new.wav")) (returns tt)
                     (returns (mk_transcription (lit "hello") None))
                     (returns tt))
                  [lit "/tmp/old.wav"] [] (lit "/tmp/old.wav")));
    [now left|discriminate].
Defined.

(** X20: a failure of [os.unlink] is swallowed: the signals of the call
    are the same whether the temporary file could be deleted or not. *)
Theorem unlink_failure_is_silent
  (tmp : outcome path) (wave : outcome unit) (tr : outcome transcription)
  (u1 u2 : outcome unit) (files : list path) (audio_data : bytes) :
  snd (_process_speech (mk_environment tmp wave tr u1) files audio_data)
  = snd (_process_speech (mk_environment tmp wave tr u2) files audio_data).
Proof.
  unfold _process_speech. simpl.
  destruct tmp; [|reflexivity]. destruct wave; [|reflexivity].
  destruct tr; [|reflexivity]. now destruct (truthy _ && _).
Qed.

(** X21: every call ends by emitting a status, and that status is the
    error status exactly when creating the temporary file, writing it or the
    transcription raised. *)
Theorem process_speech_ends_with_status
  (env : environment) (files : list path) (audio_data : bytes) :
  exists before message,
    snd (_process_speech env files audio_data)
    = before ++ [status_updated message]
    /\ (message = status_error
        <-> NamedTemporaryFile env = raises
            \/ wave_write env = raises
            \/ transcribe env = raises).
Proof.
  unfold _process_speech.
  destruct (NamedTemporaryFile env) as [p|].
  2:{ exists [], status_error. split; [reflexivity|]. tauto. }
  destruct (wave_write env) as [u|].
  2:{ exists [], status_error. split; [reflexivity|]. tauto. }
  destruct (transcribe env) as [result|].
  2:{ exists [status_updated status_recognizing], status_error.
      split; [reflexivity|]. tauto. }
  destruct (truthy _ && _); simpl.
  - eexists [_; _], _. split; [reflexivity|]. split.
    + intros H. discriminate H.
    + intros [H|[H|H]]; discriminate H.
  - eexists [_], _. split; [reflexivity|]. split.
    + intros H. discriminate H.
    + intros [H|[H|H]]; discriminate H.
Qed.

(** X22: a recognition that succeeds, delivered to the window.  When the
    transcription returns a text that is longer than one character once
    trimmed, the window shows it in the current slot with the pending marker
    and the detected language ("unknown" when the result names none), the
    old current entry moves to the previous slot if it had a text, and the
    task is appended to the translation queue. *)
Theorem recognition_reaches_window
  (env : environment) (files : list path) (audio_data : bytes)
  (temp_path : path) (result : transcription)
  (w : DraggableSubtitleWindow.window) (tw : DraggableSubtitleWindow.worker) :
  NamedTemporaryFile env = returns temp_path ->
  wave_write env = returns tt ->
  transcribe env = returns result ->
  1 < length (strip (text result)) ->
  DraggableSubtitleWindow.translation_worker w = Some tw ->
  let t := strip (text result) in
  let l := match language result with Some l => l | None => lit "unknown" end in
  let w' :=
    DraggableSubtitleWindow.deliver_all w
      (snd (_process_speech env files audio_data)) in
  DraggableSubtitleWindow.current_subtitle w'
  = DraggableSubtitleWindow.mk_subtitle t
      DraggableSubtitleWindow.pending_marker l
  /\ DraggableSubtitleWindow.previous_subtitle w'
     = (if truthy (DraggableSubtitleWindow.original
                     (DraggableSubtitleWindow.current_subtitle w))
        then DraggableSubtitleWindow.current_subtitle w
        else DraggableSubtitleWindow.previous_subtitle w)
  /\ pending_tasks w'
     = DraggableSubtitleWindow.request_queue tw ++ [(t, l)]
  /\ DraggableSubtitleWindow.status_label w'
     = status_done (_get_language_name l).
Proof.
  intros Htmp Hwave Htr Hlen Htw t l w'. subst w'.
  unfold _process_speech. rewrite Htmp, Hwave, Htr. fold t. fold l.
  rewrite (proj2 (long_text_test t) Hlen).
  unfold DraggableSubtitleWindow.deliver_all. cbn [snd fold_left].
  cbn [DraggableSubtitleWindow.deliver].
  set (w0 := DraggableSubtitleWindow.set_status_label w status_recognizing).
  assert (Hnb : nonblank t = true).
  { unfold nonblank. subst t. rewrite strip_idempotent.
    destruct (strip (text result)); [inversion Hlen|reflexivity]. }
  assert (Htw0 : DraggableSubtitleWindow.translation_worker w0 = Some tw)
    by exact Htw.
  pose proof (on_speech_recognized_queue w0 tw t l Htw0) as Hq.
  rewrite Hnb in Hq.
  split; [exact (on_speech_recognized_current w0 t l)|].
  split; [exact (on_speech_recognized_previous w0 t l)|].
  split; [|reflexivity].
  unfold pending_tasks.
  cbn [DraggableSubtitleWindow.set_status_label
         DraggableSubtitleWindow.translation_worker].
  fold (DraggableSubtitleWindow.translation_worker
          (DraggableSubtitleWindow.on_speech_recognized w0 t l)).
  now rewrite Hq.
Qed.

Lemma recognition_reaches_window_witness :
  let env :=
    mk_environment (returns (lit "/tmp/tmpk3.wav")) (returns tt)
      (returns (mk_transcription (lit " Hello. ") None)) (returns tt) in
  DraggableSubtitleWindow.current_subtitle
    (DraggableSubtitleWindow.deliver_all DraggableSubtitleWindow.init
       (snd (_process_speech env [] [])))
  = DraggableSubtitleWindow.mk_subtitle (lit "Hello.")
      DraggableSubtitleWindow.pending_marker (lit "unknown").
Proof.
  intros env.
  apply (recognition_reaches_window env [] [] (lit "/tmp/tmpk3.wav")
           (mk_transcription (lit " Hello. ") None)
           DraggableSubtitleWindow.init
           (DraggableSubtitleWindow.mk_worker [])
           eq_refl eq_refl eq_refl);
    [vm_compute; lia|reflexivity].
Defined.

(** *** Language names *)

Lemma dict_get_missing (d : list (str * str)) (key default : str) :
  (forall k, In k (map fst d) -> k <> key) ->
  DraggableSubtitleWindow.dict_get d key default = default.
Proof.
  induction d as [|[k v] d IH]; intros H; simpl; [reflexivity|].
  assert (Hk : eqb k key = false)
    by (apply eqb_neq, H; now left).
  rewrite Hk. apply IH. intros k' Hk'. apply H. now right.
Qed.

(** X23: a language code that is in neither table is displayed as it is,
    both in the status of the recognizer and in the language label of the
    window. *)
Theorem unlisted_language_code_shown_as_is (lang_code : str) :
  (forall k,
     In k (map fst DraggableSubtitleWindow.language_names) ->
     k <> lang_code) ->
  _get_language_name lang_code = lang_code
  /\ DraggableSubtitleWindow._get_language_name lang_code = lang_code
  /\ forall w text,
       DraggableSubtitleWindow.language_label
         (DraggableSubtitleWindow.on_speech_recognized w text lang_code)
       = [26816; 27979; 35821; 35328; 58; 32]%N ++ lang_code.
Proof.
  intros H.
  assert (Hw : DraggableSubtitleWindow._get_language_name lang_code
               = lang_code)
    by (apply dict_get_missing; exact H).
  split; [|split; [exact Hw|]].
  - apply dict_get_missing. intros k Hk. apply H.
    simpl in Hk |- *. intuition.
  - intros w text. unfold DraggableSubtitleWindow.on_speech_recognized.
    rewrite Hw. simpl.
    destruct (DraggableSubtitleWindow.translation_worker w); reflexivity.
Qed.

Lemma unlisted_language_code_shown_as_is_witness :
  _get_language_name (lit "it") = lit "it"
  /\ DraggableSubtitleWindow._get_language_name (lit "it") = lit "it".
Proof.
  destruct (unlisted_language_code_shown_as_is (lit "it")) as [H1 [H2 _]].
  - intros k Hk. simpl in Hk.
    repeat destruct Hk as [<-|Hk]; try discriminate. destruct Hk.
  - split; [exact H1|exact H2].
Defined.

End TranscriptionMore.
